(** * gemini_prompt: a shallow embedding of [main.py]

    The script reads a prompt template, asks a text-generation service for
    [GENERATION_COUNT] answers with a rate-limit back-off, extracts the
    ["prompt"] fields from the JSON each answer carries, and writes the raw
    answers and the extracted prompts to two files.

    The development has two halves.  The first half holds the definitions:
    a small model of the Python run time the script leans on (text,
    exceptions, [str.strip], [json.loads], the environment, files), followed
    by the functions of [main.py] under their own names.  The second half
    holds the theorems. *)

From Stdlib Require Import QArith.
From Corelib Require Import PrimFloat SpecFloat FloatOps.
From stdpp Require Import base numbers option list strings pretty gmap
  fin_maps.

Set Default Proof Using "Type".
Local Open Scope N_scope.

(** ** Python run-time model *)

Module Py.

(** A Python [str] is a sequence of Unicode code points. *)
Abbreviation char := N.
Abbreviation pystr := (list N).

(** The text of an ASCII literal. *)
Definition lit (s : string) : pystr :=
  map Ascii.N_of_ascii (String.list_ascii_of_string s).

Definition LF : char := 10.
Definition CR : char := 13.
Definition DQUOTE : char := 34.

(** [s.startswith(p)] *)
Fixpoint startswith (s p : pystr) {struct p} : bool :=
  match p, s with
  | [], _ => true
  | _ :: _, [] => false
  | c :: p', d :: s' => (c =? d) && startswith s' p'
  end.

(** [s.endswith(p)]: the last [len(p)] characters of [s] are [p]. *)
Definition endswith (s p : pystr) : bool :=
  (length p <=? length s)%nat &&
  bool_decide (drop (length s - length p)%nat s = p).

(** [needle in hay] for two strings. *)
Fixpoint contains (needle hay : pystr) : bool :=
  startswith hay needle ||
  match hay with
  | [] => false
  | _ :: hay' => contains needle hay'
  end.

(** [s[n:]] and [s[:-n]] for a literal [n >= 0]. *)
Definition slice_from (n : nat) (s : pystr) : pystr := drop n s.
Definition slice_to_neg (n : nat) (s : pystr) : pystr :=
  take (length s - n)%nat s.

(** [str.isspace] on one character: the code points CPython lists in
    [_PyUnicode_IsWhitespace]. *)
Definition isspace (c : char) : bool :=
  ((9 <=? c) && (c <=? 13)) || ((28 <=? c) && (c <=? 32)) ||
  (c =? 133) || (c =? 160) || (c =? 5760) ||
  ((8192 <=? c) && (c <=? 8202)) ||
  (c =? 8232) || (c =? 8233) || (c =? 8239) || (c =? 8287) || (c =? 12288).

Fixpoint lstrip (s : pystr) : pystr :=
  match s with
  | c :: s' => if isspace c then lstrip s' else s
  | [] => []
  end.

Definition rstrip (s : pystr) : pystr := reverse (lstrip (reverse s)).

(** [s.strip()] *)
Definition strip (s : pystr) : pystr := rstrip (lstrip s).

(** The lines of a text: the pieces that end in a line feed, and the rest
    after the last line feed.  [cur] is the line being read, reversed. *)
Fixpoint lines_aux (cur : pystr) (s : pystr) : list pystr * pystr :=
  match s with
  | [] => ([], reverse cur)
  | c :: s' =>
      if c =? LF
      then let '(ls, rest) := lines_aux [] s' in (reverse cur :: ls, rest)
      else lines_aux (c :: cur) s'
  end.

Definition lines (s : pystr) : list pystr := fst (lines_aux [] s).
Definition unterminated (s : pystr) : pystr := snd (lines_aux [] s).

(** *** Exceptions *)

Inductive exn_class :=
  | BaseException | KeyboardInterrupt | SystemExit
  | Exception
  | ValueError | JSONDecodeError
  | UnicodeError | UnicodeDecodeError | UnicodeEncodeError
  | LookupError | KeyError
  | TypeError
  | RuntimeError | RecursionError
  | OSError | FileNotFoundError | IsADirectoryError | PermissionError.

#[global] Instance exn_class_eq_dec : EqDecision exn_class.
Proof. solve_decision. Defined.

(** The direct base class. *)
Definition base (c : exn_class) : option exn_class :=
  match c with
  | BaseException => None
  | KeyboardInterrupt | SystemExit | Exception => Some BaseException
  | ValueError | LookupError | TypeError | RuntimeError | OSError =>
      Some Exception
  | JSONDecodeError | UnicodeError => Some ValueError
  | UnicodeDecodeError | UnicodeEncodeError => Some UnicodeError
  | KeyError => Some LookupError
  | RecursionError => Some RuntimeError
  | FileNotFoundError | IsADirectoryError | PermissionError => Some OSError
  end.

(** The class and its ancestors; the hierarchy is five levels deep. *)
Fixpoint mro_aux (depth : nat) (c : exn_class) : list exn_class :=
  c :: match depth, base c with
       | S d, Some b => mro_aux d b
       | _, _ => []
       end.
Definition mro : exn_class → list exn_class := mro_aux 5.

Definition issubclass (c d : exn_class) : bool := bool_decide (d ∈ mro c).

(** An exception object: its class and the text [str(e)] is built from
    (the single message argument, for the exceptions the script raises). *)
Record exn := Exn { exn_class_of : exn_class; exn_msg : pystr }.

Definition isinstance (e : exn) (c : exn_class) : bool :=
  issubclass (exn_class_of e) c.

(** [isinstance(e, (c1, ..., cn))] *)
Definition isinstance_any (e : exn) (cs : list exn_class) : bool :=
  existsb (isinstance e) cs.

(** The outcome of a computation that may raise. *)
Inductive result (A : Type) :=
  | Ok (a : A)
  | Raise (e : exn).
Arguments Ok {A} a.
Arguments Raise {A} e.

#[global] Instance result_ret : MRet result := λ A a, Ok a.
#[global] Instance result_bind : MBind result := λ A B k r,
  match r with
  | Ok a => k a
  | Raise e => Raise e
  end.

(** [try: body  except ...: handler]; the handler sees every exception and
    re-raises the ones no clause matches. *)
Definition try_except {A} (body : result A) (handler : exn → result A)
  : result A :=
  match body with
  | Ok a => Ok a
  | Raise e => handler e
  end.

End Py.
Import Py.

(** ** [json.loads]

    The decoder of the standard library, after CPython's [json.decoder] and
    [json.scanner]: white space is space, tab, line feed and carriage
    return; strings are strict (no raw control characters); [NaN],
    [Infinity] and [-Infinity] are accepted; every syntax error is a
    [JSONDecodeError].  Two refusals of the interpreter are no syntax
    errors: arrays and objects nested deeper than its recursion limit
    raise [RecursionError], and an integer of more than 4300 digits raises
    a plain [ValueError]. *)

Module Json.

(** A decoded value.  An [int] is kept as its value, a [float] as the text
    it was read from.  A [dict] keeps its keys in insertion order. *)
#[warnings="-register-all"] Inductive json :=
  | JNull
  | JBool (b : bool)
  | JInt (z : Z)
  | JFloat (lexeme : pystr)
  | JString (s : pystr)
  | JArray (items : list json)
  | JObject (members : list (pystr * json)).

(** [d[k] = v] on an insertion-ordered dict. *)
Fixpoint dict_set (k : pystr) (v : json) (d : list (pystr * json))
  : list (pystr * json) :=
  match d with
  | [] => [(k, v)]
  | (k', v') :: d' =>
      if bool_decide (k = k') then (k, v) :: d'
      else (k', v') :: dict_set k v d'
  end.

(** [dict(pairs)]: a later pair replaces the value of an earlier equal key. *)
Definition dict_of_pairs (pairs : list (pystr * json)) : list (pystr * json) :=
  foldl (λ d kv, dict_set kv.1 kv.2 d) [] pairs.

(** [d.get(k)]: [None] where [d[k]] raises [KeyError]. *)
Fixpoint dict_get (k : pystr) (d : list (pystr * json)) : option json :=
  match d with
  | [] => None
  | (k', v) :: d' => if bool_decide (k = k') then Some v else dict_get k d'
  end.

Definition decode_error (msg : string) : exn := Exn JSONDecodeError (lit msg).

(** [sys.getrecursionlimit()]: 1000 unless the program changes it, and
    [main.py] does not.  The scanner enters one level for every array or
    object it opens.  The levels the callers of [json.loads] already use
    are not counted, so this is the deepest nesting the decoder can ever
    accept. *)
Definition recursion_limit : nat := 1000.

Definition recursion_error (what : string) : exn :=
  Exn RecursionError
    (lit "maximum recursion depth exceeded while decoding a JSON "
     ++ lit what ++ lit " from a unicode string").

(** [sys.get_int_max_str_digits()]: the longest digit string [int] takes. *)
Definition int_max_str_digits : nat := 4300.

Definition int_too_long (digits : nat) : exn :=
  Exn ValueError
    (lit "Exceeds the limit (4300 digits) for integer string conversion: "
     ++ lit "value has " ++ lit (pretty digits)
     ++ lit " digits; use sys.set_int_max_str_digits() to increase the limit").

(** [WHITESPACE.match(s, idx).end()] *)
Fixpoint skip_ws (s : pystr) : pystr :=
  match s with
  | c :: s' =>
      if (c =? 32) || (c =? 9) || (c =? 10) || (c =? 13) then skip_ws s' else s
  | [] => []
  end.

Definition is_digit (c : char) : bool := (48 <=? c) && (c <=? 57).

(** The longest run of digits at the head of [s], and what follows it. *)
Fixpoint span_digits (s : pystr) : pystr * pystr :=
  match s with
  | c :: s' =>
      if is_digit c
      then let '(ds, rest) := span_digits s' in (c :: ds, rest)
      else ([], s)
  | [] => ([], [])
  end.

(** [NUMBER_RE], one group at a time: an optional minus and either a lone
    zero or a digit run without a leading zero; an optional dot and digit
    run; an optional [e] or [E], sign and digit run. *)
Definition match_integer (s : pystr) : option (pystr * pystr) :=
  let '(sign, s1) := match s with
                     | c :: s' => if c =? 45 then ([c], s') else ([], s)
                     | [] => ([], s)
                     end in
  match s1 with
  | c :: s2 =>
      if c =? 48 then Some (sign ++ [c], s2)
      else if is_digit c
      then let '(ds, s3) := span_digits s2 in Some (sign ++ c :: ds, s3)
      else None
  | [] => None
  end.

Definition match_frac (s : pystr) : pystr * pystr :=
  match s with
  | c :: s1 =>
      if c =? 46 then
        match span_digits s1 with
        | ([], _) => ([], s)
        | (ds, s2) => (c :: ds, s2)
        end
      else ([], s)
  | [] => ([], s)
  end.

Definition match_exp (s : pystr) : pystr * pystr :=
  match s with
  | c :: s1 =>
      if (c =? 101) || (c =? 69) then
        let '(sign, s2) := match s1 with
                           | g :: s2 =>
                               if (g =? 43) || (g =? 45) then ([g], s2)
                               else ([], s1)
                           | [] => ([], s1)
                           end in
        match span_digits s2 with
        | ([], _) => ([], s)
        | (ds, s3) => (c :: sign ++ ds, s3)
        end
      else ([], s)
  | [] => ([], s)
  end.

(** [int(text)] for a text [match_integer] accepted: the sign apart, a
    text of more than [int_max_str_digits] digits is refused. *)
Definition int_of_digits (ds : pystr) : Z :=
  foldl (λ acc c, 10 * acc + Z.of_N (c - 48))%Z 0%Z ds.
Definition parse_int (text : pystr) : result Z :=
  let '(negative, ds) :=
    match text with
    | c :: ds => if c =? 45 then (true, ds) else (false, text)
    | [] => (false, [])
    end in
  if (int_max_str_digits <? length ds)%nat
  then Raise (int_too_long (length ds))
  else Ok (if negative then (- int_of_digits ds)%Z else int_of_digits ds).

(** [_match_number]: [None] where the text does not start with a number;
    a number without fraction and exponent is an [int]. *)
Definition match_number (s : pystr) : option (result (json * pystr)) :=
  match match_integer s with
  | None => None
  | Some (integer, s1) =>
      let '(frac, s2) := match_frac s1 in
      let '(exp, s3) := match_exp s2 in
      match frac, exp with
      | [], [] => Some (z ← parse_int integer; Ok (JInt z, s3))
      | _, _ => Some (Ok (JFloat (integer ++ frac ++ exp), s3))
      end
  end.

(** *** Strings *)

Definition hex_digit (c : char) : option N :=
  if (48 <=? c) && (c <=? 57) then Some (c - 48)
  else if (97 <=? c) && (c <=? 102) then Some (c - 87)
  else if (65 <=? c) && (c <=? 70) then Some (c - 55)
  else None.

Definition hex4 (a b c d : char) : option N :=
  x3 ← hex_digit a; x2 ← hex_digit b; x1 ← hex_digit c; x0 ← hex_digit d;
  Some (4096 * x3 + 256 * x2 + 16 * x1 + x0).

(** The [BACKSLASH] table. *)
Definition unescape (c : char) : option char :=
  match c with
  | 34 => Some 34 | 92 => Some 92 | 47 => Some 47
  | 98 => Some 8 | 102 => Some 12 | 110 => Some 10
  | 114 => Some 13 | 116 => Some 9
  | _ => None
  end.

Definition is_high_surrogate (u : N) : bool := (55296 <=? u) && (u <=? 56319).
Definition is_low_surrogate (u : N) : bool := (56320 <=? u) && (u <=? 57343).
Definition join_surrogates (hi lo : N) : N :=
  65536 + (N.lor (N.shiftl (hi - 55296) 10) (lo - 56320)).

(** [scanstring]: [s] starts just after the opening quote; [acc] holds the
    characters read so far, last first.  34 is the double quote, 92 the
    backslash, 117 the letter u. *)
Fixpoint scanstring (s : pystr) (acc : pystr) : result (pystr * pystr) :=
  match s with
  | [] => Raise (decode_error "Unterminated string starting at")
  | c :: rest =>
      if c =? 34 then Ok (reverse acc, rest)
      else if c =? 92 then
        match rest with
        | [] => Raise (decode_error "Unterminated string starting at")
        | esc :: rest1 =>
            if esc =? 117 then
              match rest1 with
              | h1 :: h2 :: h3 :: h4 :: rest2 =>
                  match hex4 h1 h2 h3 h4 with
                  | None => Raise (decode_error "Invalid \uXXXX escape")
                  | Some uni =>
                      match rest2 with
                      | b :: u :: g1 :: g2 :: g3 :: g4 :: rest3 =>
                          if is_high_surrogate uni && (b =? 92) && (u =? 117)
                          then
                            match hex4 g1 g2 g3 g4 with
                            | None =>
                                Raise (decode_error "Invalid \uXXXX escape")
                            | Some uni2 =>
                                if is_low_surrogate uni2
                                then scanstring rest3
                                       (join_surrogates uni uni2 :: acc)
                                else scanstring rest2 (uni :: acc)
                            end
                          else scanstring rest2 (uni :: acc)
                      | _ => scanstring rest2 (uni :: acc)
                      end
                  end
              | _ => Raise (decode_error "Invalid \uXXXX escape")
              end
            else
              match unescape esc with
              | Some c' => scanstring rest1 (c' :: acc)
              | None => Raise (decode_error "Invalid \escape")
              end
        end
      else if c <? 32
      then Raise (decode_error "Invalid control character at")
      else scanstring rest (c :: acc)
  end.

(** *** Values

    [scan_once], [JSONArray] and [JSONObject] call one another; [fuel]
    bounds the number of calls, and [None] means it ran out.  [depth] is
    the number of arrays and objects that may still be opened, one inside
    the other, before the interpreter raises [RecursionError].
    [array_items] is the loop of [JSONArray], entered where a value is
    expected; [object_items] is the loop of [JSONObject], entered just
    after the opening quote of a key.  [acc] holds what was read so far,
    last first.  The characters tested are the double quote (34), the
    braces (123, 125), the brackets (91, 93), the comma (44) and the
    colon (58). *)
Fixpoint scan_once (fuel depth : nat) (s : pystr)
  : option (result (json * pystr)) :=
  match fuel with
  | O => None
  | S fuel =>
      if startswith s [34] then
        Some ('(text, rest) ← scanstring (drop 1 s) [];
              Ok (JString text, rest))
      else if startswith s [123] then
        match depth with
        | O => Some (Raise (recursion_error "object"))
        | S depth =>
            match skip_ws (drop 1 s) with
            | c :: s2 =>
                if c =? 125 then Some (Ok (JObject [], s2))
                else if c =? 34 then object_items fuel depth s2 []
                else Some (Raise (decode_error
                       "Expecting property name enclosed in double quotes"))
            | [] => Some (Raise (decode_error
                       "Expecting property name enclosed in double quotes"))
            end
        end
      else if startswith s [91] then
        match depth with
        | O => Some (Raise (recursion_error "array"))
        | S depth =>
            let s1 := skip_ws (drop 1 s) in
            if startswith s1 [93] then Some (Ok (JArray [], drop 1 s1))
            else array_items fuel depth s1 []
        end
      else if startswith s (lit "null") then Some (Ok (JNull, drop 4 s))
      else if startswith s (lit "true") then Some (Ok (JBool true, drop 4 s))
      else if startswith s (lit "false") then
        Some (Ok (JBool false, drop 5 s))
      else
        match match_number s with
        | Some r => Some r
        | None =>
            if startswith s (lit "NaN") then
              Some (Ok (JFloat (lit "NaN"), drop 3 s))
            else if startswith s (lit "Infinity") then
              Some (Ok (JFloat (lit "Infinity"), drop 8 s))
            else if startswith s (lit "-Infinity") then
              Some (Ok (JFloat (lit "-Infinity"), drop 9 s))
            else Some (Raise (decode_error "Expecting value"))
        end
  end
with array_items (fuel depth : nat) (s : pystr) (acc : list json)
  : option (result (json * pystr)) :=
  match fuel with
  | O => None
  | S fuel =>
      match scan_once fuel depth s with
      | None => None
      | Some (Raise e) => Some (Raise e)
      | Some (Ok (value, s1)) =>
          let s2 := skip_ws s1 in
          if startswith s2 [93] then
            Some (Ok (JArray (reverse (value :: acc)), drop 1 s2))
          else if startswith s2 [44] then
            array_items fuel depth (skip_ws (drop 1 s2)) (value :: acc)
          else Some (Raise (decode_error "Expecting ',' delimiter"))
      end
  end
with object_items (fuel depth : nat) (s : pystr) (acc : list (pystr * json))
  : option (result (json * pystr)) :=
  match fuel with
  | O => None
  | S fuel =>
      match scanstring s [] with
      | Raise e => Some (Raise e)
      | Ok (key, s1) =>
          let s2 := skip_ws s1 in
          if startswith s2 [58] then
            match scan_once fuel depth (skip_ws (drop 1 s2)) with
            | None => None
            | Some (Raise e) => Some (Raise e)
            | Some (Ok (value, s3)) =>
                let pairs := (key, value) :: acc in
                let s4 := skip_ws s3 in
                if startswith s4 [125] then
                  Some (Ok (JObject (dict_of_pairs (reverse pairs)),
                            drop 1 s4))
                else if startswith s4 [44] then
                  let s5 := skip_ws (drop 1 s4) in
                  if startswith s5 [34]
                  then object_items fuel depth (drop 1 s5) pairs
                  else Some (Raise (decode_error
                         "Expecting property name enclosed in double quotes"))
                else Some (Raise (decode_error "Expecting ',' delimiter"))
            end
          else Some (Raise (decode_error "Expecting ':' delimiter"))
      end
  end.

(** Calls never outnumber twice the characters left by more than two
    ([scan_fuel] below), so this is fuel enough for all of [s]. *)
Definition fuel_for (s : pystr) : nat := 2 * length s + 2.

(** [JSONDecoder.decode]: one value, white space around it, nothing else.
    The out-of-fuel branch is never taken ([decode_fuel] below). *)
Definition decode (s : pystr) : result json :=
  match scan_once (fuel_for s) recursion_limit (skip_ws s) with
  | None => Raise (decode_error "Expecting value")
  | Some r =>
      '(obj, rest) ← r;
      match skip_ws rest with
      | [] => Ok obj
      | _ => Raise (decode_error "Extra data")
      end
  end.

(** [json.loads(s)] for a [str] argument. *)
Definition loads (s : pystr) : result json :=
  if startswith s [65279]
  then Raise (decode_error "Unexpected UTF-8 BOM (decode using utf-8-sig)")
  else decode s.

End Json.
Import Json.

(** ** The process environment and the files *)

Module Os.

(** [os.environ] *)
Abbreviation environ := (gmap pystr pystr).

(** [os.getenv(name)]: [None] when the variable is unset. *)
Definition getenv (env : environ) (name : pystr) : option pystr := env !! name.

(** [load_dotenv()] with its default [override=False]: every assignment of
    the settings file whose variable is not yet in the environment is
    added; a variable that is already set keeps its value. *)
Definition load_dotenv (dotenv env : environ) : environ := env ∪ dotenv.

(** What a path holds: a text file, or something that cannot be opened or
    read as text (a directory, a file without permission, bytes that are
    not UTF-8), given by the exception the attempt raises. *)
Inductive node :=
  | File (content : pystr)
  | Faulty (e : exn).

Abbreviation filesystem := (gmap pystr node).

Definition no_such_file : exn :=
  Exn FileNotFoundError (lit "[Errno 2] No such file or directory").

(** Reading in text mode with the default [newline=None] translates the
    line ends: a carriage return followed by a line feed, and a carriage
    return alone, both come out as one line feed.  [after_cr] says that
    the character before was a carriage return. *)
Fixpoint translate_newlines (after_cr : bool) (s : pystr) : pystr :=
  match s with
  | [] => []
  | c :: s' =>
      if c =? CR then LF :: translate_newlines true s'
      else if (c =? LF) && after_cr then translate_newlines false s'
      else c :: translate_newlines false s'
  end.

Definition universal_newlines (s : pystr) : pystr :=
  translate_newlines false s.

(** [with open(path, "r", encoding="utf-8") as file: file.read()] *)
Definition read_text (fs : filesystem) (path : pystr) : result pystr :=
  match fs !! path with
  | None => Raise no_such_file
  | Some (Faulty e) => Raise e
  | Some (File content) => Ok (universal_newlines content)
  end.

(** [open(path, "w", encoding="utf-8")]: the file is created or emptied. *)
Definition open_truncate (fs : filesystem) (path : pystr)
  : filesystem * result unit :=
  match fs !! path with
  | Some (Faulty e) => (fs, Raise e)
  | _ => (<[path := File []]> fs, Ok ())
  end.

(** [open(path, "a", encoding="utf-8")]: the file is created if absent and
    otherwise left as it is. *)
Definition open_append (fs : filesystem) (path : pystr)
  : filesystem * result unit :=
  match fs !! path with
  | Some (Faulty e) => (fs, Raise e)
  | Some (File _) => (fs, Ok ())
  | None => (<[path := File []]> fs, Ok ())
  end.

Definition is_surrogate (c : char) : bool := (55296 <=? c) && (c <=? 57343).

Definition append_text (text : pystr) (n : node) : node :=
  match n with
  | File content => File (content ++ text)
  | Faulty e => Faulty e
  end.

(** [file.write(text)] on a file opened for writing at [path]: the text
    goes to the end of the file; UTF-8 cannot encode a surrogate. *)
Definition file_write (fs : filesystem) (path : pystr) (text : pystr)
  : filesystem * result unit :=
  if existsb is_surrogate text
  then (fs, Raise (Exn UnicodeEncodeError
                     (lit "'utf-8' codec can't encode character: surrogates not allowed")))
  else (alter (append_text text) path fs, Ok ()).

(** The text of the file at [path], if there is one. *)
Definition content_of (fs : filesystem) (path : pystr) : option pystr :=
  match fs !! path with
  | Some (File content) => Some content
  | _ => None
  end.

End Os.
Import Os.

(** ** The remote service and the log *)

(** One call of [model.generate_content(prompt)] followed by
    [response.text]: the text, or the exception either step raised. *)
Inductive outcome :=
  | Returns (text : pystr)
  | Raises (e : exn).

(** The service as the run sees it: the outcome of its n-th call,
    counting from zero. *)
Definition service := nat → outcome.

(** The records the script hands to the logger, by call site. *)
Inductive log_entry :=
  | RateLimitWarning (new_delay : Q)
  | GenerationError (e : exn)
  | Traceback
  | ProcessingError (e : exn) (response : pystr).

(** ** [main.py] *)

(** *** Constants *)

Definition API_KEY_ENV_VAR : pystr := lit "GOOGLE_API_KEY".
Definition PROMPT_FILE : pystr := lit "./prompt.txt".
Definition OUTPUT_FILE : pystr := lit "prompts_meat.txt".
Definition RAW_RESPONSES_FILE : pystr := lit "raw_responses.txt".
Definition GENERATION_COUNT : Z := 10.
Definition INITIAL_DELAY : Q := 3.

(** *** [load_api_key]

    [dotenv] holds the assignments of the local settings file; the
    environment after [load_dotenv()] is returned with the result. *)
Definition load_api_key (dotenv env : environ) : environ * result pystr :=
  let env := load_dotenv dotenv env in
  let api_key := getenv env API_KEY_ENV_VAR in
  (env,
   match api_key with
   | None | Some [] =>
       Raise (Exn ValueError
                (lit "API key not found in environment variable: "
                 ++ API_KEY_ENV_VAR))
   | Some api_key => Ok api_key
   end).

(** *** [read_prompt_from_file] *)
Definition read_prompt_from_file (fs : filesystem) (file_path : pystr)
  : result pystr :=
  try_except
    (content ← read_text fs file_path; Ok (strip content))
    (λ e,
       if isinstance e FileNotFoundError then
         Raise (Exn FileNotFoundError
                  (lit "Prompt file not found: " ++ file_path))
       else if isinstance e Exception then
         Raise (Exn RuntimeError
                  (lit "Error reading prompt file: " ++ file_path
                   ++ lit ", " ++ exn_msg e))
       else Raise e).

(** *** [generate_responses] *)

(** The local variables of the function, the number of calls made so far,
    the pauses taken ([time.sleep]) and the records logged, oldest first. *)
Record gen_state := GenState {
  responses : list pystr;
  delay : Q;
  errors : nat;
  calls : nat;
  sleeps : list Q;
  gen_log : list log_entry
}.

(** How the [try] statement of the inner loop ends: with a [break], or by
    falling through to the statement after it. *)
Inductive completion := Break | FallThrough.

(** The [try] statement, lines 51 to 65, when its pause elapses; for a
    pause that a signal cuts short see [Interruptible.try_call] below. *)
Definition try_call (api : service) (st : gen_state)
  : gen_state * result completion :=
  match api (calls st) with
  | Returns text =>
      (GenState (responses st ++ [text]) (delay st) (errors st)
         (S (calls st)) (sleeps st ++ [delay st]) (gen_log st),
       Ok Break)
  | Raises e =>
      if isinstance e Exception then
        if contains (lit "rateLimitExceeded") (exn_msg e) then
          let delay' := (delay st + (1 # 2))%Q in
          (GenState (responses st) delay' (S (errors st))
             (S (calls st)) (sleeps st ++ [delay'])
             (gen_log st ++ [RateLimitWarning delay']),
           Ok FallThrough)
        else
          (GenState (responses st) (delay st) (errors st)
             (S (calls st)) (sleeps st)
             (gen_log st ++ [GenerationError e; Traceback]),
           Ok Break)
      else
        (GenState (responses st) (delay st) (errors st)
           (S (calls st)) (sleeps st) (gen_log st),
         Raise e)
  end.

(** The [while True] loop, lines 50 to 67; [fuel] bounds its iterations
    and [None] means it ran out. *)
Fixpoint while_true (fuel : nat) (api : service) (st : gen_state)
  : option (gen_state * result unit) :=
  match fuel with
  | O => None
  | S fuel =>
      match try_call api st with
      | (st', Raise e) => Some (st', Raise e)
      | (st', Ok Break) => Some (st', Ok ())
      | (st', Ok FallThrough) =>
          if (20 <? errors st')%nat then Some (st', Ok ())
          else while_true fuel api st'
      end
  end.

(** The counter grows with every iteration that does not leave the loop,
    so the loop never runs more than 21 times ([while_true_fuel]). *)
Definition retry_fuel : nat := 21.

(** The [for _ in range(n)] loop, lines 49 to 67. *)
Fixpoint for_range (n : nat) (api : service) (st : gen_state)
  : option (gen_state * result unit) :=
  match n with
  | O => Some (st, Ok ())
  | S n =>
      match while_true retry_fuel api st with
      | None => None
      | Some (st', Raise e) => Some (st', Raise e)
      | Some (st', Ok _) => for_range n api st'
      end
  end.

Definition gen_init : gen_state := GenState [] INITIAL_DELAY 0 0 [] [].

(** The whole function: the final state and what it returns.  The key and
    the prompt only travel to the service, which [api] stands for; [None]
    would mean that a loop ran out of fuel, which does not happen
    ([generate_responses_returns] below). *)
Definition generate_responses (api : service) (generation_count : Z)
  : option (gen_state * result (list pystr)) :=
  match for_range (Z.to_nat generation_count) api gen_init with
  | None => None
  | Some (st, Raise e) => Some (st, Raise e)
  | Some (st, Ok _) => Some (st, Ok (responses st))
  end.

(** *** [extract_prompts_from_json] *)

(** Lines 73 to 76: the two fence markers. *)
Definition strip_fences (json_string : pystr) : pystr :=
  let json_string :=
    if startswith json_string (lit "```json")
    then slice_from 7 json_string else json_string in
  if endswith json_string (lit "```")
  then slice_to_neg 3 json_string else json_string.

Definition type_error (msg : string) : exn := Exn TypeError (lit msg).

(** [iter(data)]: what the comprehension's [for item in data] runs over. *)
Definition iterate (data : json) : result (list json) :=
  match data with
  | JArray items => Ok items
  | JObject members => Ok (map (λ kv, JString kv.1) members)
  | JString s => Ok (map (λ c, JString [c]) s)
  | JNull => Raise (type_error "'NoneType' object is not iterable")
  | JBool _ => Raise (type_error "'bool' object is not iterable")
  | JInt _ => Raise (type_error "'int' object is not iterable")
  | JFloat _ => Raise (type_error "'float' object is not iterable")
  end.

(** [item["prompt"]] *)
Definition subscript_prompt (item : json) : result json :=
  match item with
  | JObject members =>
      match dict_get (lit "prompt") members with
      | Some value => Ok value
      | None => Raise (Exn KeyError (lit "prompt"))
      end
  | JArray _ =>
      Raise (type_error "list indices must be integers or slices, not str")
  | JString _ => Raise (type_error "string indices must be integers, not 'str'")
  | JNull => Raise (type_error "'NoneType' object is not subscriptable")
  | JBool _ => Raise (type_error "'bool' object is not subscriptable")
  | JInt _ => Raise (type_error "'int' object is not subscriptable")
  | JFloat _ => Raise (type_error "'float' object is not subscriptable")
  end.

(** Lines 78 and 79. *)
Definition extract_body (json_string : pystr) : result (list json) :=
  data ← Json.loads json_string;
  items ← iterate data;
  mapM subscript_prompt items.

Definition extract_prompts_from_json (json_string : pystr)
  : result (list json) :=
  let json_string := strip_fences json_string in
  try_except
    (extract_body json_string)
    (λ e,
       if isinstance e JSONDecodeError then
         Raise (Exn ValueError (lit "Invalid JSON string: " ++ json_string))
       else if isinstance e KeyError then
         Raise (Exn KeyError
                  (lit "Missing 'prompt' key in JSON: " ++ json_string))
       else if isinstance e Exception then
         Raise (Exn RuntimeError
                  (lit "Error extracting prompts from JSON: " ++ exn_msg e))
       else Raise e).

(** *** [process_responses] *)

(** The [for response in responses] loop with its two variables:
    [all_prompts] and the log. *)
Fixpoint process_loop (responses : list pystr) (all_prompts : list json)
    (log : list log_entry) : list log_entry * result (list json) :=
  match responses with
  | [] => (log, Ok all_prompts)
  | response :: rest =>
      match extract_prompts_from_json response with
      | Ok extracted_prompts =>
          process_loop rest (all_prompts ++ extracted_prompts) log
      | Raise e =>
          if isinstance_any e [ValueError; KeyError; RuntimeError]
          then process_loop rest all_prompts
                 (log ++ [ProcessingError e response])
          else (log, Raise e)
      end
  end.

Definition process_responses (responses : list pystr)
  : list log_entry * result (list json) :=
  process_loop responses [] [].

(** *** [write_prompts_to_file] and [write_raw_responses_to_file] *)

(** [x + "\n"] for a value [x]: defined on a [str] only. *)
Definition add_newline (x : json) : result pystr :=
  match x with
  | JString s => Ok (s ++ [LF])
  | _ => Raise (type_error "unsupported operand type(s) for +")
  end.

(** [for prompt in prompts: file.write(prompt + "\n")] *)
Fixpoint write_each_prompt (fs : filesystem) (file_path : pystr)
    (prompts : list json) : filesystem * result unit :=
  match prompts with
  | [] => (fs, Ok ())
  | prompt :: rest =>
      match add_newline prompt with
      | Raise e => (fs, Raise e)
      | Ok line =>
          match file_write fs file_path line with
          | (fs', Raise e) => (fs', Raise e)
          | (fs', Ok _) => write_each_prompt fs' file_path rest
          end
      end
  end.

(** [for response in responses: file.write(response + "\n")] *)
Fixpoint write_each_response (fs : filesystem) (file_path : pystr)
    (responses : list pystr) : filesystem * result unit :=
  match responses with
  | [] => (fs, Ok ())
  | response :: rest =>
      match file_write fs file_path (response ++ [LF]) with
      | (fs', Raise e) => (fs', Raise e)
      | (fs', Ok _) => write_each_response fs' file_path rest
      end
  end.

(** [except Exception as e: raise RuntimeError(f"{what}{file_path}, {e}")] *)
Definition wrap_write_error (what : string) (file_path : pystr)
    (r : result unit) : result unit :=
  try_except r
    (λ e,
       if isinstance e Exception then
         Raise (Exn RuntimeError
                  (lit what ++ file_path ++ lit ", " ++ exn_msg e))
       else Raise e).

Definition write_prompts_to_file (prompts : list json) (file_path : pystr)
    (fs : filesystem) : filesystem * result unit :=
  let '(fs, r) :=
    match open_append fs file_path with
    | (fs, Raise e) => (fs, Raise e)
    | (fs, Ok _) => write_each_prompt fs file_path prompts
    end in
  (fs, wrap_write_error "Error writing to file: " file_path r).

Definition write_raw_responses_to_file (responses : list pystr)
    (file_path : pystr) (fs : filesystem) : filesystem * result unit :=
  let '(fs, r) :=
    match open_truncate fs file_path with
    | (fs, Raise e) => (fs, Raise e)
    | (fs, Ok _) => write_each_response fs file_path responses
    end in
  (fs, wrap_write_error "Error writing raw responses to file: " file_path r).

(** *** [main] *)

(** What reaches the logger during [main]: the records of the functions it
    calls, and its own two, the summary and the error with its trace. *)
Inductive main_entry :=
  | Logged (entry : log_entry)
  | SuccessInfo (count : nat) (file : pystr)
  | ErrorOccurred (e : exn)
  | ErrorTraceback.

(** What a run leaves behind: the environment, the files, the number of
    calls made to the service and the log. *)
Record world := World {
  environment : environ;
  files : filesystem;
  service_calls : nat;
  logged : list main_entry
}.

(** The body of the [try] statement, lines 120 to 126; [None] only if
    [generate_responses] ran out of fuel. *)
Definition main_try (dotenv : environ) (api : service) (env : environ)
    (fs : filesystem) : option (world * result unit) :=
  let '(env, api_key) := load_api_key dotenv env in
  match api_key with
  | Raise e => Some (World env fs 0 [], Raise e)
  | Ok api_key =>
  match read_prompt_from_file fs PROMPT_FILE with
  | Raise e => Some (World env fs 0 [], Raise e)
  | Ok prompt =>
  match generate_responses api GENERATION_COUNT with
  | None => None
  | Some (st, Raise e) =>
      Some (World env fs (calls st) (Logged <$> gen_log st), Raise e)
  | Some (st, Ok responses) =>
  let log := Logged <$> gen_log st in
  match write_raw_responses_to_file responses RAW_RESPONSES_FILE fs with
  | (fs, Raise e) => Some (World env fs (calls st) log, Raise e)
  | (fs, Ok _) =>
  match process_responses responses with
  | (plog, Raise e) =>
      Some (World env fs (calls st) (log ++ (Logged <$> plog)), Raise e)
  | (plog, Ok extracted_prompts) =>
  let log := log ++ (Logged <$> plog) in
  match write_prompts_to_file extracted_prompts OUTPUT_FILE fs with
  | (fs, Raise e) => Some (World env fs (calls st) log, Raise e)
  | (fs, Ok _) =>
      Some (World env fs (calls st)
              (log ++ [SuccessInfo (length extracted_prompts) OUTPUT_FILE]),
            Ok ())
  end end end end end end.

(** [main]: the [try] statement with its [except Exception] clause, which
    logs the error and its trace and returns. *)
Definition main (dotenv : environ) (api : service) (env : environ)
    (fs : filesystem) : option (world * result unit) :=
  match main_try dotenv api env fs with
  | None => None
  | Some (w, Ok _) => Some (w, Ok ())
  | Some (w, Raise e) =>
      if isinstance e Exception then
        Some (World (environment w) (files w) (service_calls w)
                (logged w ++ [ErrorOccurred e; ErrorTraceback]),
              Ok ())
      else Some (w, Raise e)
  end.

(** ** Runs that a signal interrupts

    The functions above are the runs in which every pause elapses.
    [time.sleep] raises when a signal arrives whose handler raises; with
    the handlers Python installs that is [KeyboardInterrupt].  The pause
    of line 54 stands inside the [try] statement, where the [except]
    clause sees what it raises; the pause of line 60 stands inside the
    [except] clause, which nothing guards.  Below, [generate_responses]
    and [main] once more, with the pauses as a second oracle beside the
    service; with the oracle [uninterrupted] they are the functions above
    ([generate_responses_uninterrupted] and [main_uninterrupted]). *)

(** What the k-th pause the run begins raises, if anything, counting from
    zero. *)
Definition pauses := nat → option exn.

Definition uninterrupted : pauses := λ _, None.

Module Interruptible.

(** The variables of [generate_responses], with the pauses that elapsed,
    and the number of pauses that were cut short. *)
Record run_state := RunState { vars : gen_state; interrupted : nat }.

(** The number of pauses begun so far. *)
Definition begun (st : run_state) : nat :=
  (length (sleeps (vars st)) + interrupted st)%nat.

Definition set_vars (f : gen_state → gen_state) (st : run_state) : run_state :=
  RunState (f (vars st)) (interrupted st).

(** The assignments of the loop body, one variable at a time. *)
Definition called (v : gen_state) : gen_state :=
  GenState (responses v) (delay v) (errors v) (S (calls v)) (sleeps v)
    (gen_log v).
Definition appended (text : pystr) (v : gen_state) : gen_state :=
  GenState (responses v ++ [text]) (delay v) (errors v) (calls v) (sleeps v)
    (gen_log v).
Definition slept (d : Q) (v : gen_state) : gen_state :=
  GenState (responses v) (delay v) (errors v) (calls v) (sleeps v ++ [d])
    (gen_log v).
Definition delayed (d : Q) (v : gen_state) : gen_state :=
  GenState (responses v) d (errors v) (calls v) (sleeps v) (gen_log v).
Definition counted (v : gen_state) : gen_state :=
  GenState (responses v) (delay v) (S (errors v)) (calls v) (sleeps v)
    (gen_log v).
Definition logging (entries : list log_entry) (v : gen_state) : gen_state :=
  GenState (responses v) (delay v) (errors v) (calls v) (sleeps v)
    (gen_log v ++ entries).

(** [time.sleep(d)] *)
Definition time_sleep (pause : pauses) (d : Q) (st : run_state)
  : run_state * result unit :=
  match pause (begun st) with
  | None => (set_vars (slept d) st, Ok ())
  | Some e => (RunState (vars st) (S (interrupted st)), Raise e)
  end.

(** The [except Exception as e] clause, lines 56 to 65.  What the pause
    of line 60 raises leaves the [try] statement, before the counter is
    incremented. *)
Definition except_clause (pause : pauses) (e : exn) (st : run_state)
  : run_state * result completion :=
  if isinstance e Exception then
    if contains (lit "rateLimitExceeded") (exn_msg e) then
      let delay' := (delay (vars st) + (1 # 2))%Q in
      let st := set_vars (delayed delay') st in
      let st := set_vars (logging [RateLimitWarning delay']) st in
      match time_sleep pause delay' st with
      | (st, Raise e') => (st, Raise e')
      | (st, Ok _) => (set_vars counted st, Ok FallThrough)
      end
    else (set_vars (logging [GenerationError e; Traceback]) st, Ok Break)
  else (st, Raise e).

(** The [try] statement, lines 51 to 65.  When the pause of line 54
    raises, the response is already in the list. *)
Definition try_call (pause : pauses) (api : service) (st : run_state)
  : run_state * result completion :=
  let outcome := api (calls (vars st)) in
  let st := set_vars called st in
  match outcome with
  | Returns text =>
      let st := set_vars (appended text) st in
      match time_sleep pause (delay (vars st)) st with
      | (st, Ok _) => (st, Ok Break)
      | (st, Raise e) => except_clause pause e st
      end
  | Raises e => except_clause pause e st
  end.

(** The [while True] loop, lines 50 to 67. *)
Fixpoint while_true (fuel : nat) (pause : pauses) (api : service)
    (st : run_state) : option (run_state * result unit) :=
  match fuel with
  | O => None
  | S fuel =>
      match try_call pause api st with
      | (st', Raise e) => Some (st', Raise e)
      | (st', Ok Break) => Some (st', Ok ())
      | (st', Ok FallThrough) =>
          if (20 <? errors (vars st'))%nat then Some (st', Ok ())
          else while_true fuel pause api st'
      end
  end.

(** The [for _ in range(n)] loop, lines 49 to 67. *)
Fixpoint for_range (n : nat) (pause : pauses) (api : service)
    (st : run_state) : option (run_state * result unit) :=
  match n with
  | O => Some (st, Ok ())
  | S n =>
      match while_true retry_fuel pause api st with
      | None => None
      | Some (st', Raise e) => Some (st', Raise e)
      | Some (st', Ok _) => for_range n pause api st'
      end
  end.

Definition generate_responses (pause : pauses) (api : service)
    (generation_count : Z) : option (run_state * result (list pystr)) :=
  match for_range (Z.to_nat generation_count) pause api
          (RunState gen_init 0) with
  | None => None
  | Some (st, Raise e) => Some (st, Raise e)
  | Some (st, Ok _) => Some (st, Ok (responses (vars st)))
  end.

(** The body of the [try] statement of [main], lines 120 to 126. *)
Definition main_try (pause : pauses) (dotenv : environ) (api : service)
    (env : environ) (fs : filesystem) : option (world * result unit) :=
  let '(env, api_key) := load_api_key dotenv env in
  match api_key with
  | Raise e => Some (World env fs 0 [], Raise e)
  | Ok api_key =>
  match read_prompt_from_file fs PROMPT_FILE with
  | Raise e => Some (World env fs 0 [], Raise e)
  | Ok prompt =>
  match generate_responses pause api GENERATION_COUNT with
  | None => None
  | Some (st, Raise e) =>
      Some (World env fs (calls (vars st)) (Logged <$> gen_log (vars st)),
            Raise e)
  | Some (st, Ok responses) =>
  let st := vars st in
  let log := Logged <$> gen_log st in
  match write_raw_responses_to_file responses RAW_RESPONSES_FILE fs with
  | (fs, Raise e) => Some (World env fs (calls st) log, Raise e)
  | (fs, Ok _) =>
  match process_responses responses with
  | (plog, Raise e) =>
      Some (World env fs (calls st) (log ++ (Logged <$> plog)), Raise e)
  | (plog, Ok extracted_prompts) =>
  let log := log ++ (Logged <$> plog) in
  match write_prompts_to_file extracted_prompts OUTPUT_FILE fs with
  | (fs, Raise e) => Some (World env fs (calls st) log, Raise e)
  | (fs, Ok _) =>
      Some (World env fs (calls st)
              (log ++ [SuccessInfo (length extracted_prompts) OUTPUT_FILE]),
            Ok ())
  end end end end end end.

(** [main]: the [try] statement with its [except Exception] clause. *)
Definition main (pause : pauses) (dotenv : environ) (api : service)
    (env : environ) (fs : filesystem) : option (world * result unit) :=
  match main_try pause dotenv api env fs with
  | None => None
  | Some (w, Ok _) => Some (w, Ok ())
  | Some (w, Raise e) =>
      if isinstance e Exception then
        Some (World (environment w) (files w) (service_calls w)
                (logged w ++ [ErrorOccurred e; ErrorTraceback]),
              Ok ())
      else Some (w, Raise e)
  end.

End Interruptible.

(** ** Vocabulary of the statements *)

(** A JSON string literal for a text that needs no escapes. *)
Definition quoted (s : pystr) : pystr := DQUOTE :: s ++ [DQUOTE].

Definition is_object (v : json) : bool :=
  match v with
  | JObject _ => true
  | _ => false
  end.

(** The value under ["prompt"], for an object that has the key. *)
Definition prompt_of (item : json) : option json :=
  match item with
  | JObject members => dict_get (lit "prompt") members
  | _ => None
  end.

(** A value that is not a list and over which iteration either fails or
    yields at least one item. *)
Definition not_a_list_and_not_empty (data : json) : bool :=
  match data with
  | JArray _ | JObject [] | JString [] => false
  | _ => true
  end.

(** A failure of the service that the loop classifies as a rate limit. *)
Definition rate_limited (o : outcome) : bool :=
  match o with
  | Raises e =>
      isinstance e Exception && contains (lit "rateLimitExceeded") (exn_msg e)
  | Returns _ => false
  end.

(** The state [j] calls after [st], whatever loop iteration they fall in:
    both loops change the state through [try_call] only. *)
Definition advance (api : service) (j : nat) (st : gen_state) : gen_state :=
  Nat.iter j (λ st, (try_call api st).1) st.

(** The state of [generate_responses] after its first [k] calls. *)
Definition after_calls (api : service) (k : nat) : gen_state :=
  advance api k gen_init.

(** The number of rate-limit failures among the first [k] calls. *)
Definition rate_limit_errors (api : service) (k : nat) : nat :=
  length (filter (λ i, rate_limited (api i) = true) (seq 0 k)).

(** The delay as the interpreter holds it, a binary64 number: [k] times
    [delay += 0.5] from 3. *)
Definition float_delay (k : nat) : float :=
  Nat.iter k (λ d, (d + 0.5)%float) 3%float.

(** The rational a finite binary64 number stands for. *)
Definition float_value (f : float) : option Q :=
  match Prim2SF f with
  | S754_zero _ => Some 0%Q
  | S754_finite sign m e =>
      let v := if (0 <=? e)%Z then inject_Z (Z.pos m * 2 ^ e)
               else (Z.pos m # 2 ^ Z.to_pos (- e))%Q in
      Some (if sign then (- v)%Q else v)
  | S754_infinity _ | S754_nan => None
  end.

(** The binary64 delay after [k] rate-limit errors is exactly [3 + k/2]. *)
Definition float_delay_exact (k : nat) : bool :=
  match float_value (float_delay k) with
  | Some q => Qeq_bool q (3 + (1 # 2) * inject_Z (Z.of_nat k))
  | None => false
  end.

(** Every item followed by a line feed. *)
Definition newline_terminated (items : list pystr) : pystr :=
  concat (map (λ x, x ++ [LF]) items).

(** What one response adds to the result and to the log of
    [process_responses]. *)
Definition prompts_of (response : pystr) : list json :=
  match extract_prompts_from_json response with
  | Ok prompts => prompts
  | Raise _ => []
  end.
Definition error_of (response : pystr) : list log_entry :=
  match extract_prompts_from_json response with
  | Ok _ => []
  | Raise e => [ProcessingError e response]
  end.

(** The texts of the calls that succeeded among the first [k], in call
    order. *)
Definition successes (api : service) (k : nat) : list pystr :=
  omap (λ i, match api i with
             | Returns text => Some text
             | Raises _ => None
             end) (seq 0 k).

Definition is_string (v : json) : bool :=
  match v with
  | JString _ => true
  | _ => false
  end.

(** The pauses in [l] never get shorter. *)
Definition non_decreasing (l : list Q) : Prop :=
  ∀ i j d1 d2, (i ≤ j)%nat → l !! i = Some d1 → l !! j = Some d2 → (d1 <= d2)%Q.

(** The response is one [extract_prompts_from_json] returns on. *)
Definition extracts (response : pystr) : bool :=
  match extract_prompts_from_json response with
  | Ok _ => true
  | Raise _ => false
  end.

(** *** Sample inputs *)

(** The fenced answer with one record, on three lines. *)
Definition fenced_a : pystr :=
  lit "```json" ++ [LF] ++
  lit "[{" ++ quoted (lit "prompt") ++ lit ":" ++ quoted (lit "a") ++ lit "}]"
  ++ [LF] ++ lit "```".

(** One record without the key. *)
Definition notprompt_x : pystr :=
  lit "[{" ++ quoted (lit "notprompt") ++ lit ":" ++ quoted (lit "x")
  ++ lit "}]".

(** A number, then a record without the key. *)
Definition five_then_notprompt : pystr :=
  lit "[5, {" ++ quoted (lit "notprompt") ++ lit ":" ++ quoted (lit "x")
  ++ lit "}]".

(** Two records, with prompts a and b. *)
Definition prompts_a_b : pystr :=
  lit "[{" ++ quoted (lit "prompt") ++ lit ":" ++ quoted (lit "a") ++ lit "},{"
  ++ quoted (lit "prompt") ++ lit ":" ++ quoted (lit "b") ++ lit "}]".

Definition not_json : pystr := lit "{not json".

(** One record that is not wrapped in a list. *)
Definition bare_record : pystr :=
  lit "{" ++ quoted (lit "prompt") ++ lit ":" ++ quoted (lit "a") ++ lit "}".

(** A service that answers every call with a rate-limit error. *)
Definition always_rate_limited : service :=
  λ _, Raises (Exn Exception (lit "429 rateLimitExceeded")).

(** A service whose first 21 calls hit the rate limit and whose later
    calls succeed. *)
Definition rate_limited_at_first : service :=
  λ n, if (n <? 21)%nat
       then Raises (Exn Exception (lit "429 rateLimitExceeded"))
       else Returns (lit "ok").

(** A service whose calls fail in turn with an error that is no rate
    limit: the calls with an even number succeed. *)
Definition fails_every_other : service :=
  λ n, if Nat.even n
       then Returns (lit "ok")
       else Raises (Exn Exception (lit "500 internal error")).

(** A service that answers every call with the two records a and b. *)
Definition answers_a_b : service := λ _, Returns prompts_a_b.

(** The third pause is cut short from the keyboard. *)
Definition interrupted_third_pause : pauses :=
  λ k, if (k =? 2)%nat then Some (Exn KeyboardInterrupt []) else None.

(** 1500 opening brackets, and the same closed again. *)
Definition deeply_nested_open : pystr := replicate 1500 91.
Definition deeply_nested : pystr := replicate 1500 91 ++ replicate 1500 93.

(** A list that holds one integer of 4301 digits. *)
Definition long_integer : pystr := lit "[" ++ replicate 4301 49 ++ lit "]".

(** A template of two lines that end in carriage return and line feed. *)
Definition crlf_template : pystr :=
  lit "first" ++ [CR; LF] ++ lit "second" ++ [CR; LF].

(** * Theorems *)

(** ** Text *)

Section text_facts.
Implicit Types s p t : pystr.

Lemma startswith_app p t : startswith (p ++ t) p = true.
Proof. induction p as [|c p IH]; simpl; [done|]. by rewrite N.eqb_refl. Qed.

Lemma startswith_inv s p : startswith s p = true → ∃ t, s = p ++ t.
Proof.
  revert s; induction p as [|c p IH]; intros s H; simpl in *; [by eexists|].
  destruct s as [|d s]; [done|].
  apply andb_true_iff in H as [Hc Hs]. apply N.eqb_eq in Hc as ->.
  destruct (IH _ Hs) as [t ->]. by eexists.
Qed.

Lemma startswith_spec s p : startswith s p = true ↔ ∃ t, s = p ++ t.
Proof.
  split; [apply startswith_inv|]. intros [t ->]. apply startswith_app.
Qed.

Lemma startswith_drop s p :
  startswith s p = true → s = p ++ drop (length p) s.
Proof.
  intros [t ->]%startswith_inv. by rewrite drop_app_length.
Qed.

Lemma startswith_drop_lt s p :
  startswith s p = true → p ≠ [] →
  (length (drop (length p) s) < length s)%nat.
Proof.
  intros [t ->]%startswith_inv Hp. rewrite drop_app_length, length_app.
  destruct p; [done|]. simpl. lia.
Qed.

Lemma startswith_nonempty s p :
  startswith s p = true → p ≠ [] → (0 < length s)%nat.
Proof. destruct p, s; simpl; try done. lia. Qed.

Lemma endswith_spec s p : endswith s p = true ↔ ∃ t, s = t ++ p.
Proof.
  unfold endswith. rewrite andb_true_iff, bool_decide_eq_true, Nat.leb_le.
  split.
  - intros [Hle Hd]. exists (take (length s - length p) s).
    transitivity (take (length s - length p) s
                  ++ drop (length s - length p) s);
      [by rewrite take_drop | by rewrite Hd].
  - intros [t ->]. rewrite length_app. split; [lia|].
    replace (length t + length p - length p)%nat with (length t) by lia.
    by rewrite drop_app_length.
Qed.

Lemma slice_to_neg_app t p : slice_to_neg (length p) (t ++ p) = t.
Proof.
  unfold slice_to_neg. rewrite length_app.
  replace (length t + length p - length p)%nat with (length t) by lia.
  by rewrite take_app_length.
Qed.
End text_facts.

(** ** [json.loads]: its errors, its progress and its fuel *)

Module JsonFacts.

Lemma skip_ws_length s : (length (skip_ws s) ≤ length s)%nat.
Proof.
  induction s as [|c s IH]; simpl; [done|]. case_match; simpl; lia.
Qed.

Lemma span_digits_length s ds rest :
  span_digits s = (ds, rest) → (length rest ≤ length s)%nat.
Proof.
  revert ds rest; induction s as [|c s IH]; intros ds rest; simpl.
  - by intros [= _ <-].
  - destruct (is_digit c); [|by intros [= _ <-]].
    destruct (span_digits s) as [ds' rest'] eqn:E. intros [= _ <-].
    specialize (IH _ _ eq_refl). lia.
Qed.

Lemma match_integer_length s text rest :
  match_integer s = Some (text, rest) → (length rest < length s)%nat.
Proof.
  unfold match_integer. intros H.
  destruct s as [|c s]; simpl in H; [done|].
  destruct (c =? 45).
  - destruct s as [|d s]; [done|]. simpl.
    destruct (d =? 48); [injection H as _ <-; lia|].
    destruct (is_digit d); [|done].
    destruct (span_digits s) as [ds r] eqn:E. injection H as _ <-.
    apply span_digits_length in E. lia.
  - destruct (c =? 48); [injection H as _ <-; simpl; lia|].
    destruct (is_digit c); [|done].
    destruct (span_digits s) as [ds r] eqn:E. injection H as _ <-.
    apply span_digits_length in E. simpl. lia.
Qed.

Lemma match_frac_length s text rest :
  match_frac s = (text, rest) → (length rest ≤ length s)%nat.
Proof.
  unfold match_frac. intros H. destruct s as [|c s]; [by injection H as _ <-|].
  destruct (c =? 46); [|by injection H as _ <-].
  destruct (span_digits s) as [ds r] eqn:E. apply span_digits_length in E.
  destruct ds; injection H as _ <-; simpl; lia.
Qed.

Lemma match_exp_length s text rest :
  match_exp s = (text, rest) → (length rest ≤ length s)%nat.
Proof.
  unfold match_exp. intros H. destruct s as [|c s]; [by injection H as _ <-|].
  destruct (_ || _); [|by injection H as _ <-].
  destruct (match s with [] => _ | _ => _ end) as [sign s2] eqn:Es.
  assert (length s2 ≤ length s)%nat as Hs2.
  { destruct s as [|g s]; [by injection Es as _ <-|].
    destruct (_ || _); injection Es as _ <-; simpl; lia. }
  destruct (span_digits s2) as [ds r] eqn:E. apply span_digits_length in E.
  destruct ds; injection H as _ <-; simpl; lia.
Qed.

Lemma match_number_length s v rest :
  match_number s = Some (Ok (v, rest)) → (length rest < length s)%nat.
Proof.
  unfold match_number. intros H.
  destruct (match_integer s) as [[integer s1]|] eqn:E1; [|done].
  destruct (match_frac s1) as [frac s2] eqn:E2.
  destruct (match_exp s2) as [exp s3] eqn:E3.
  apply match_integer_length in E1. apply match_frac_length in E2.
  apply match_exp_length in E3.
  assert (rest = s3) as ->.
  { destruct frac, exp; try (by injection H).
    destruct (parse_int integer); cbn in H; by simplify_eq. }
  lia.
Qed.

(** The only error of a number is the refusal of a long integer. *)
Lemma match_number_raises s e :
  match_number s = Some (Raise e) → exn_class_of e = ValueError.
Proof.
  unfold match_number. intros H.
  destruct (match_integer s) as [[integer s1]|]; [|done].
  destruct (match_frac s1) as [frac s2], (match_exp s2) as [exp s3].
  destruct frac, exp; try done.
  destruct (parse_int integer) as [z|e'] eqn:E; [done|].
  injection H as <-. unfold parse_int in E.
  destruct (match integer with [] => _ | _ => _ end) as [negative ds].
  destruct (_ <? _)%nat; [by injection E as <- | done].
Qed.

Lemma scanstring_length_aux n : ∀ s acc text rest,
  (length s ≤ n)%nat →
  scanstring s acc = Ok (text, rest) → (length rest < length s)%nat.
Proof.
  induction n as [|n IH]; intros s acc text rest Hn H.
  - destruct s; [done | simpl in Hn; lia].
  - destruct s as [|c s]; [done|]. simpl in H, Hn.
    repeat (case_match; simplify_eq; simpl in Hn);
      try (apply IH in H; simpl in *; lia); simpl; lia.
Qed.

Lemma scanstring_length s acc text rest :
  scanstring s acc = Ok (text, rest) → (length rest < length s)%nat.
Proof. by apply (scanstring_length_aux (length s)). Qed.

Lemma scanstring_raises_aux n : ∀ s acc e,
  (length s ≤ n)%nat →
  scanstring s acc = Raise e → exn_class_of e = JSONDecodeError.
Proof.
  induction n as [|n IH]; intros s acc e Hn H.
  - destruct s; [by injection H as <- | simpl in Hn; lia].
  - destruct s as [|c s]; [by injection H as <-|]. simpl in H, Hn.
    repeat (case_match; simplify_eq; simpl in Hn); try done;
      (eapply IH; [|done]; simpl in *; lia).
Qed.

Lemma scanstring_raises s acc e :
  scanstring s acc = Raise e → exn_class_of e = JSONDecodeError.
Proof. by apply (scanstring_raises_aux (length s)). Qed.

(** Every error of the three mutually recursive scanners is a
    [JSONDecodeError], the [RecursionError] of the nesting or the
    [ValueError] of a long integer. *)
Lemma scan_raises fuel :
  (∀ depth s e, scan_once fuel depth s = Some (Raise e) →
          exn_class_of e = JSONDecodeError ∨ exn_class_of e = RecursionError
          ∨ exn_class_of e = ValueError) ∧
  (∀ depth s acc e, array_items fuel depth s acc = Some (Raise e) →
          exn_class_of e = JSONDecodeError ∨ exn_class_of e = RecursionError
          ∨ exn_class_of e = ValueError) ∧
  (∀ depth s acc e, object_items fuel depth s acc = Some (Raise e) →
          exn_class_of e = JSONDecodeError ∨ exn_class_of e = RecursionError
          ∨ exn_class_of e = ValueError).
Proof.
  induction fuel as [|fuel (IHs & IHa & IHo)]; [done|].
  split_and!; intros;
    cbn [scan_once array_items object_items] in *;
    unfold mbind, result_bind in *;
    repeat (case_match; simplify_eq); try (by auto); eauto;
    try (left; by eapply scanstring_raises);
    right; right; by eapply match_number_raises.
Qed.

Lemma decode_raises s e :
  decode s = Raise e →
  exn_class_of e = JSONDecodeError ∨ exn_class_of e = RecursionError
  ∨ exn_class_of e = ValueError.
Proof.
  unfold decode, mbind, result_bind. intros H.
  repeat (case_match; simplify_eq); try (by auto).
  by eapply (proj1 (scan_raises _)).
Qed.

(** What [json.loads] raises is an [Exception], and a [JSONDecodeError]
    unless the interpreter refused the nesting or an integer. *)
Lemma loads_raises s e :
  loads s = Raise e →
  exn_class_of e = JSONDecodeError ∨ exn_class_of e = RecursionError
  ∨ exn_class_of e = ValueError.
Proof.
  unfold loads. case_match; [intros [= <-]; by left|]. apply decode_raises.
Qed.

(** Brings the length of every text in sight down to the length of the
    text it was cut from. *)
Ltac measure :=
  repeat match goal with
    | H : scanstring _ _ = Ok _ |- _ => apply scanstring_length in H
    | H : match_number _ = Some (Ok _) |- _ => apply match_number_length in H
    | IH : ∀ depth s v rest, scan_once ?f depth s = _ → _,
      H : scan_once ?f _ _ = Some (Ok _) |- _ => apply IH in H
    | IH : ∀ depth s acc v rest, array_items ?f depth s acc = _ → _,
      H : array_items ?f _ _ _ = Some (Ok _) |- _ => apply IH in H
    | IH : ∀ depth s acc v rest, object_items ?f depth s acc = _ → _,
      H : object_items ?f _ _ _ = Some (Ok _) |- _ => apply IH in H
    | H : startswith _ _ = true |- _ =>
        apply startswith_nonempty in H; [|by vm_compute]
    | H : startswith _ _ = false |- _ => clear H
    | H : skip_ws ?s = _ :: _ |- _ =>
        apply (f_equal length) in H; cbn [length] in H
    end;
  repeat match goal with
    | |- context [length (skip_ws ?s)] =>
        lazymatch goal with
        | _ : (length (skip_ws s) ≤ length s)%nat |- _ => fail
        | _ => pose proof (skip_ws_length s)
        end
    | _ : context [length (skip_ws ?s)] |- _ =>
        lazymatch goal with
        | _ : (length (skip_ws s) ≤ length s)%nat |- _ => fail
        | _ => pose proof (skip_ws_length s)
        end
    end;
  rewrite ?length_drop in *; try lia.

(** A scanner that returns has consumed at least one character. *)
Lemma scan_progress fuel :
  (∀ depth s v rest, scan_once fuel depth s = Some (Ok (v, rest)) →
               (length rest < length s)%nat) ∧
  (∀ depth s acc v rest, array_items fuel depth s acc = Some (Ok (v, rest)) →
                   (length rest < length s)%nat) ∧
  (∀ depth s acc v rest, object_items fuel depth s acc = Some (Ok (v, rest)) →
                   (length rest < length s)%nat).
Proof.
  induction fuel as [|fuel (IHs & IHa & IHo)]; [done|].
  split_and!; intros;
    cbn [scan_once array_items object_items] in *;
    unfold mbind, result_bind in *;
    repeat (case_match; simplify_eq); measure.
Qed.

(** With twice the length of the text and one to spare, a scanner does
    not run out of fuel; the two loops need one more. *)
Lemma scan_fuel fuel :
  (∀ depth s, (2 * length s + 1 ≤ fuel)%nat →
              is_Some (scan_once fuel depth s)) ∧
  (∀ depth s acc, (2 * length s + 2 ≤ fuel)%nat →
                  is_Some (array_items fuel depth s acc)) ∧
  (∀ depth s acc, (2 * length s + 2 ≤ fuel)%nat →
                  is_Some (object_items fuel depth s acc)).
Proof.
  induction fuel as [|fuel (IHs & IHa & IHo)]; [split_and!; intros; lia|].
  destruct (scan_progress fuel) as (Ps & Pa & Po).
  split_and!; intros;
    cbn [scan_once array_items object_items] in *;
    unfold mbind, result_bind in *.
  - repeat (case_match; simplify_eq); try done.
    + apply IHo. measure.
    + apply IHa. measure.
  - destruct (IHs depth s) as [r Hr]; [lia|]. rewrite Hr.
    repeat (case_match; simplify_eq); try done.
    apply IHa. measure.
  - repeat (case_match; simplify_eq); try done.
    + apply IHo. measure.
    + match goal with
      | H : scan_once fuel ?d ?t = None |- _ =>
          destruct (IHs d t) as [? ?]; [measure | congruence]
      end.
Qed.

(** [decode] never takes its out-of-fuel branch. *)
Lemma decode_fuel s :
  is_Some (scan_once (fuel_for s) recursion_limit (skip_ws s)).
Proof.
  apply scan_fuel. unfold fuel_for. pose proof (skip_ws_length s). lia.
Qed.

End JsonFacts.

(** ** The result monad *)

Section result_facts.
Context {A B : Type} (f : A → result B).

Lemma mapM_ok l k : Forall2 (λ x y, f x = Ok y) l k → mapM f l = Ok k.
Proof.
  induction 1 as [|x y l k Hx _ IH]; [done|].
  cbn [mapM]. rewrite Hx. cbn. rewrite IH. done.
Qed.

(** The first item on which [f] raises decides the outcome. *)
Lemma mapM_raise pre x post e :
  Forall (λ y, ∃ v, f y = Ok v) pre → f x = Raise e →
  mapM f (pre ++ x :: post) = Raise e.
Proof.
  intros Hpre Hx. induction Hpre as [|y pre [v Hy] _ IH]; cbn [mapM app].
  - by rewrite Hx.
  - rewrite Hy. cbn. by rewrite IH.
Qed.

Lemma mapM_raise_inv l e : mapM f l = Raise e → ∃ x, x ∈ l ∧ f x = Raise e.
Proof.
  induction l as [|x l IH]; [done|]. cbn [mapM].
  destruct (f x) as [y|e'] eqn:Hx; cbn.
  - destruct (mapM f l) as [k|e'] eqn:Hl; cbn; [done|].
    intros [= ->]. destruct IH as (x' & ? & ?); [done|].
    exists x'. split; [by right | done].
  - intros [= ->]. exists x. split; [by left | done].
Qed.
End result_facts.

(** ** [extract_prompts_from_json] *)

Section extract_facts.
Implicit Types s t : pystr.

Lemma slice_fence t : slice_to_neg 3 (t ++ lit "```") = t.
Proof. apply (slice_to_neg_app t (lit "```")). Qed.

Lemma strip_fences_cases s :
  ∃ s1,
    (s = lit "```json" ++ s1 ∨ (startswith s (lit "```json") = false ∧ s1 = s))
    ∧ (s1 = strip_fences s ++ lit "```"
       ∨ (endswith s1 (lit "```") = false ∧ strip_fences s = s1)).
Proof.
  unfold strip_fences.
  destruct (startswith s (lit "```json")) eqn:Hs.
  - apply startswith_inv in Hs as [t ->]. exists t. split; [by left|].
    change (slice_from 7 (lit "```json" ++ t)) with t.
    destruct (endswith t (lit "```")) eqn:Ht; [|by right].
    apply endswith_spec in Ht as [u ->]. left.
    by rewrite slice_fence.
  - exists s. split; [by right|].
    destruct (endswith s (lit "```")) eqn:Ht; [|by right].
    apply endswith_spec in Ht as [u ->]. left.
    by rewrite slice_fence.
Qed.

Lemma strip_fences_both t :
  strip_fences (lit "```json" ++ t ++ lit "```") = t.
Proof.
  unfold strip_fences. rewrite startswith_app.
  change (slice_from 7 (lit "```json" ++ ?u)) with u.
  assert (endswith (t ++ lit "```") (lit "```") = true) as ->
    by (apply endswith_spec; by eexists).
  apply slice_fence.
Qed.

Lemma extract_invalid s e :
  Json.loads (strip_fences s) = Raise e →
  exn_class_of e = JSONDecodeError →
  extract_prompts_from_json s
  = Raise (Exn ValueError (lit "Invalid JSON string: " ++ strip_fences s)).
Proof.
  intros H Hc. unfold extract_prompts_from_json, extract_body. rewrite H.
  cbn. unfold isinstance. by rewrite Hc.
Qed.

(** A text the decoder refuses for its nesting or for a long integer goes
    to the last [except] clause. *)
Lemma extract_refused s e :
  Json.loads (strip_fences s) = Raise e →
  exn_class_of e ≠ JSONDecodeError →
  extract_prompts_from_json s
  = Raise (Exn RuntimeError
             (lit "Error extracting prompts from JSON: " ++ exn_msg e)).
Proof.
  intros H Hc. unfold extract_prompts_from_json, extract_body. rewrite H.
  cbn. unfold isinstance.
  by destruct (JsonFacts.loads_raises _ _ H) as [? | [-> | ->]].
Qed.

Lemma extract_values s items values :
  Json.loads (strip_fences s) = Ok (JArray items) →
  Forall2 (λ item v, prompt_of item = Some v) items values →
  extract_prompts_from_json s = Ok values.
Proof.
  intros H Hall. unfold extract_prompts_from_json, extract_body. rewrite H.
  cbn. rewrite (mapM_ok subscript_prompt items values); [done|].
  eapply Forall2_impl; [done|]. intros [] v; cbn; try done.
  by intros ->.
Qed.

Lemma subscript_prompt_ok item v :
  prompt_of item = Some v → subscript_prompt item = Ok v.
Proof. destruct item; cbn; try done. by intros ->. Qed.

Lemma subscript_prompt_object item :
  is_object item = true →
  (∃ v, subscript_prompt item = Ok v) ∨
  subscript_prompt item = Raise (Exn KeyError (lit "prompt")).
Proof.
  destruct item; cbn; try done. intros _. case_match; eauto.
Qed.

Lemma subscript_prompt_raises item e :
  subscript_prompt item = Raise e →
  exn_class_of e = KeyError ∨ exn_class_of e = TypeError.
Proof.
  destruct item; cbn; try case_match; intros [= <-]; auto.
Qed.

Lemma subscript_prompt_not_object item :
  is_object item = false →
  ∃ msg, subscript_prompt item = Raise (Exn TypeError msg).
Proof. destruct item; cbn; try done; intros _; by eexists. Qed.

Lemma iterate_raises data e :
  iterate data = Raise e → exn_class_of e = TypeError.
Proof. destruct data; cbn; try done; by intros [= <-]. Qed.

(** In a list whose items up to some object without the key are all
    objects, the first failing subscript is a [KeyError]. *)
Lemma subscript_key_error pre item post :
  Forall (λ x, is_object x = true) pre →
  is_object item = true → prompt_of item = None →
  mapM subscript_prompt (pre ++ item :: post)
  = Raise (Exn KeyError (lit "prompt")).
Proof.
  intros Hpre Hobj Hnone. induction Hpre as [|x pre Hx _ IH]; cbn [app mapM].
  - destruct item; try done. cbn in *. by rewrite Hnone.
  - destruct (subscript_prompt_object x Hx) as [[v ->] | ->]; [|done].
    cbn. by rewrite IH.
Qed.

Lemma extract_key_error s pre item post :
  Json.loads (strip_fences s) = Ok (JArray (pre ++ item :: post)) →
  Forall (λ x, is_object x = true) pre →
  is_object item = true → prompt_of item = None →
  extract_prompts_from_json s
  = Raise (Exn KeyError
             (lit "Missing 'prompt' key in JSON: " ++ strip_fences s)).
Proof.
  intros H Hpre Hobj Hnone.
  unfold extract_prompts_from_json, extract_body. rewrite H. cbn.
  by rewrite subscript_key_error.
Qed.

Lemma extract_type_error_item s pre item post :
  Json.loads (strip_fences s) = Ok (JArray (pre ++ item :: post)) →
  Forall (λ x, is_Some (prompt_of x)) pre → is_object item = false →
  ∃ msg, extract_prompts_from_json s
         = Raise (Exn RuntimeError
                    (lit "Error extracting prompts from JSON: " ++ msg)).
Proof.
  intros H Hpre Hobj.
  destruct (subscript_prompt_not_object item Hobj) as [msg Hmsg].
  exists msg. unfold extract_prompts_from_json, extract_body. rewrite H. cbn.
  rewrite (mapM_raise subscript_prompt pre item post (Exn TypeError msg));
    [done| |done].
  eapply Forall_impl; [done|]. intros x [v Hv].
  exists v. by apply subscript_prompt_ok.
Qed.

Lemma extract_type_error_data s data :
  Json.loads (strip_fences s) = Ok data →
  not_a_list_and_not_empty data = true →
  ∃ msg, extract_prompts_from_json s
         = Raise (Exn RuntimeError
                    (lit "Error extracting prompts from JSON: " ++ msg)).
Proof.
  intros H Hdata.
  unfold extract_prompts_from_json, extract_body. rewrite H.
  destruct data as [| | | |[|c t]|items|[|[k v] members]];
    try done; cbn; by eexists.
Qed.

(** Whatever [extract_prompts_from_json] raises is a [ValueError], a
    [KeyError] or a [RuntimeError]. *)
Lemma extract_raises s e :
  extract_prompts_from_json s = Raise e →
  exn_class_of e = ValueError ∨ exn_class_of e = KeyError
  ∨ exn_class_of e = RuntimeError.
Proof.
  unfold extract_prompts_from_json.
  destruct (extract_body (strip_fences s)) as [vs|e0] eqn:Hbody; [done|].
  assert (exn_class_of e0 = JSONDecodeError ∨ exn_class_of e0 = KeyError
          ∨ exn_class_of e0 = TypeError ∨ exn_class_of e0 = RecursionError
          ∨ exn_class_of e0 = ValueError) as Hcls.
  { unfold extract_body in Hbody.
    destruct (Json.loads _) as [data|e1] eqn:Hl; cbn in Hbody.
    - destruct (iterate data) as [items|e1] eqn:Hi; cbn in Hbody.
      + apply mapM_raise_inv in Hbody as (x & _ & Hx).
        apply subscript_prompt_raises in Hx. tauto.
      + injection Hbody as ->. apply iterate_raises in Hi. tauto.
    - injection Hbody as ->. apply JsonFacts.loads_raises in Hl. tauto. }
  cbn. unfold isinstance.
  destruct Hcls as [-> | [-> | [-> | [-> | ->]]]]; cbn; intros [= <-]; auto.
Qed.

Lemma extract_raises_caught s e :
  extract_prompts_from_json s = Raise e →
  isinstance_any e [ValueError; KeyError; RuntimeError] = true.
Proof.
  intros H. apply extract_raises in H.
  unfold isinstance_any, isinstance. by destruct H as [-> | [-> | ->]].
Qed.
End extract_facts.

(** ** [process_responses] *)

Section process_facts.

Lemma process_loop_spec rs : ∀ all_prompts log,
  process_loop rs all_prompts log
  = (log ++ flat_map error_of rs,
     Ok (all_prompts ++ flat_map prompts_of rs)).
Proof.
  induction rs as [|r rs IH]; intros all_prompts log; cbn [process_loop].
  - cbn. by rewrite !app_nil_r.
  - cbn [flat_map]. unfold error_of at 1, prompts_of at 1.
    destruct (extract_prompts_from_json r) as [ps|e] eqn:Hr.
    + by rewrite IH, <- app_assoc.
    + by rewrite (extract_raises_caught _ _ Hr), IH, <- app_assoc.
Qed.

Lemma process_responses_spec rs :
  process_responses rs
  = (flat_map error_of rs, Ok (flat_map prompts_of rs)).
Proof. apply process_loop_spec. Qed.

(** A response whose extraction fails adds its error to the log and
    nothing to the result, wherever it stands in the batch. *)
Lemma process_responses_skip before s e after :
  extract_prompts_from_json s = Raise e →
  process_responses (before ++ s :: after)
  = (flat_map error_of before ++ ProcessingError e s
       :: flat_map error_of after,
     Ok (flat_map prompts_of before ++ flat_map prompts_of after)).
Proof.
  intros H. rewrite process_responses_spec, !flat_map_app. cbn [flat_map].
  unfold error_of at 2, prompts_of at 2. by rewrite H.
Qed.
End process_facts.

(** ** The extractor and the batch: main results *)

(** C3.  [extract_prompts_from_json] first drops a leading seven-character
    fence marker if the text starts with it, then a trailing
    three-character marker if what is left ends with it; when the rest
    parses as a JSON list of records that all carry the key, it returns
    the values under ["prompt"], in order.  On the fenced one-record
    answer it returns the single prompt a. *)
Theorem extract_prompts_from_json_fenced :
  (∀ s, ∃ s1,
     (s = lit "```json" ++ s1
      ∨ (startswith s (lit "```json") = false ∧ s1 = s))
     ∧ (s1 = strip_fences s ++ lit "```"
        ∨ (endswith s1 (lit "```") = false ∧ strip_fences s = s1)))
  ∧ (∀ t, strip_fences (lit "```json" ++ t ++ lit "```") = t)
  ∧ (∀ s items values,
       Json.loads (strip_fences s) = Ok (JArray items) →
       Forall2 (λ item v, prompt_of item = Some v) items values →
       extract_prompts_from_json s = Ok values)
  ∧ extract_prompts_from_json fenced_a = Ok [JString (lit "a")].
Proof.
  split_and!.
  - apply strip_fences_cases.
  - apply strip_fences_both.
  - apply extract_values.
  - by vm_compute.
Qed.

Lemma extract_prompts_from_json_fenced_witness :
  Json.loads (strip_fences fenced_a)
  = Ok (JArray [JObject [(lit "prompt", JString (lit "a"))]])
  ∧ extract_prompts_from_json fenced_a = Ok [JString (lit "a")].
Proof.
  split; [by vm_compute|].
  apply (proj1 (proj2 (proj2 extract_prompts_from_json_fenced))
           fenced_a [JObject [(lit "prompt", JString (lit "a"))]]).
  - by vm_compute.
  - repeat constructor.
Defined.

(** C4, as stated, fails twice.  The text [five_then_notprompt] parses
    as a list that holds an object without the key, yet the error is the
    generic one, because the number in front of the object fails first.
    And 1500 opening brackets do not parse as JSON, yet the error is the
    generic one again: the decoder gives up with [RecursionError], which
    is no [JSONDecodeError]. *)
Lemma missing_key_after_number_is_runtime_error :
  (∃ items item,
     Json.loads (strip_fences five_then_notprompt) = Ok (JArray items)
     ∧ item ∈ items ∧ is_object item = true ∧ prompt_of item = None)
  ∧ (∃ e, extract_prompts_from_json five_then_notprompt = Raise e
          ∧ exn_class_of e = RuntimeError
          ∧ isinstance e KeyError = false)
  ∧ (∃ e, Json.loads (strip_fences deeply_nested_open) = Raise e
          ∧ exn_class_of e = RecursionError)
  ∧ (∃ e, extract_prompts_from_json deeply_nested_open = Raise e
          ∧ exn_class_of e = RuntimeError
          ∧ isinstance e ValueError = false).
Proof.
  split_and!.
  - exists [JInt 5; JObject [(lit "notprompt", JString (lit "x"))]],
           (JObject [(lit "notprompt", JString (lit "x"))]).
    split_and!; [by vm_compute | | done | by vm_compute].
    right. left.
  - eexists. split; [by vm_compute|]. split; by vm_compute.
  - eexists. split; [vm_compute; reflexivity|]. done.
  - eexists. split; [vm_compute; reflexivity|]. split; by vm_compute.
Qed.

(** C4, amended.  A text that the decoder rejects as malformed (a
    [JSONDecodeError]) once the fences are gone makes
    [extract_prompts_from_json] raise [ValueError].  The decoder raises
    two more errors, [RecursionError] for arrays and objects nested deeper
    than the interpreter allows and [ValueError] for an integer of more
    than 4300 digits; these reach the last [except] clause and come out as
    [RuntimeError].  A text that parses as a list in which some object
    lacks ["prompt"], every item in front of that object being an object
    too, makes it raise [KeyError].  Whatever it raises,
    [process_responses] catches and logs it, and the response adds no
    prompt.  The one-record text without the key raises [KeyError]; 1500
    nested lists and a list with an integer of 4301 digits raise
    [RuntimeError]. *)
Theorem extract_prompts_from_json_errors :
  (∀ s e,
     Json.loads (strip_fences s) = Raise e →
     exn_class_of e = JSONDecodeError →
     extract_prompts_from_json s
     = Raise (Exn ValueError (lit "Invalid JSON string: " ++ strip_fences s)))
  ∧ (∀ s e,
       Json.loads (strip_fences s) = Raise e →
       (exn_class_of e = JSONDecodeError ∨ exn_class_of e = RecursionError
        ∨ exn_class_of e = ValueError)
       ∧ (exn_class_of e ≠ JSONDecodeError →
          extract_prompts_from_json s
          = Raise (Exn RuntimeError
                     (lit "Error extracting prompts from JSON: "
                      ++ exn_msg e))))
  ∧ (∀ s pre item post,
       Json.loads (strip_fences s) = Ok (JArray (pre ++ item :: post)) →
       Forall (λ x, is_object x = true) pre →
       is_object item = true → prompt_of item = None →
       extract_prompts_from_json s
       = Raise (Exn KeyError
                  (lit "Missing 'prompt' key in JSON: " ++ strip_fences s)))
  ∧ (∀ before s e after,
       extract_prompts_from_json s = Raise e →
       isinstance_any e [ValueError; KeyError; RuntimeError] = true
       ∧ process_responses (before ++ s :: after)
         = (flat_map error_of before ++ ProcessingError e s
              :: flat_map error_of after,
            Ok (flat_map prompts_of before ++ flat_map prompts_of after)))
  ∧ extract_prompts_from_json notprompt_x
    = Raise (Exn KeyError (lit "Missing 'prompt' key in JSON: " ++ notprompt_x))
  ∧ extract_prompts_from_json deeply_nested
    = Raise (Exn RuntimeError
               (lit "Error extracting prompts from JSON: "
                ++ exn_msg (recursion_error "array")))
  ∧ extract_prompts_from_json long_integer
    = Raise (Exn RuntimeError
               (lit "Error extracting prompts from JSON: "
                ++ exn_msg (int_too_long 4301))).
Proof.
  split_and!.
  - apply extract_invalid.
  - intros s e H. split; [by eapply JsonFacts.loads_raises|].
    by apply extract_refused.
  - apply extract_key_error.
  - intros before s e after H. split.
    + by apply (extract_raises_caught s).
    + by apply process_responses_skip.
  - by vm_compute.
  - vm_compute; reflexivity.
  - vm_compute; reflexivity.
Qed.

Lemma extract_prompts_from_json_errors_witness :
  extract_prompts_from_json not_json
  = Raise (Exn ValueError (lit "Invalid JSON string: " ++ not_json))
  ∧ extract_prompts_from_json notprompt_x
    = Raise (Exn KeyError (lit "Missing 'prompt' key in JSON: " ++ notprompt_x))
  ∧ process_responses [prompts_a_b; notprompt_x]
    = ([ProcessingError
          (Exn KeyError (lit "Missing 'prompt' key in JSON: " ++ notprompt_x))
          notprompt_x],
       Ok [JString (lit "a"); JString (lit "b")]).
Proof.
  destruct extract_prompts_from_json_errors
    as (Hinvalid & _ & Hkey & Hskip & _).
  split_and!.
  - apply (Hinvalid not_json
             (decode_error "Expecting property name enclosed in double quotes")).
    + by vm_compute.
    + reflexivity.
  - apply (Hkey notprompt_x []
             (JObject [(lit "notprompt", JString (lit "x"))]) []).
    + by vm_compute.
    + constructor.
    + reflexivity.
    + by vm_compute.
  - apply (Hskip [prompts_a_b] notprompt_x _ []). by vm_compute.
Defined.

(** C10, as stated, fails: an empty top-level object is valid JSON and not
    a list of objects, yet extraction succeeds with no prompt; so does an
    empty top-level string.  A list that holds a non-object behind an
    object without the key raises [KeyError], not the generic error. *)
Lemma empty_object_extracts_nothing :
  Json.loads (strip_fences (lit "{}")) = Ok (JObject [])
  ∧ extract_prompts_from_json (lit "{}") = Ok []
  ∧ Json.loads (strip_fences (quoted [])) = Ok (JString [])
  ∧ extract_prompts_from_json (quoted []) = Ok []
  ∧ Json.loads (strip_fences (lit "[{}, 5]")) = Ok (JArray [JObject []; JInt 5])
  ∧ extract_prompts_from_json (lit "[{}, 5]")
    = Raise (Exn KeyError (lit "Missing 'prompt' key in JSON: [{}, 5]")).
Proof. split_and!; by vm_compute. Qed.

(** C10, amended.  When the text parses as JSON and the value is [null],
    a boolean, a number, a non-empty string or a non-empty object, or a
    list whose first item without a ["prompt"] value is not an object,
    [extract_prompts_from_json] raises [RuntimeError] with the message
    "Error extracting prompts from JSON: ..."; that is neither a
    [ValueError] nor a [KeyError], and [process_responses] catches it,
    logs it and goes on, the response adding no prompt.  An empty object
    or an empty string yields an empty list of prompts and no error. *)
Theorem extract_prompts_from_json_wrong_shape :
  (∀ s data,
     Json.loads (strip_fences s) = Ok data →
     not_a_list_and_not_empty data = true →
     ∃ msg, extract_prompts_from_json s
            = Raise (Exn RuntimeError
                       (lit "Error extracting prompts from JSON: " ++ msg)))
  ∧ (∀ s pre item post,
       Json.loads (strip_fences s) = Ok (JArray (pre ++ item :: post)) →
       Forall (λ x, is_Some (prompt_of x)) pre → is_object item = false →
       ∃ msg, extract_prompts_from_json s
              = Raise (Exn RuntimeError
                         (lit "Error extracting prompts from JSON: " ++ msg)))
  ∧ (∀ msg, isinstance (Exn RuntimeError msg) ValueError = false
            ∧ isinstance (Exn RuntimeError msg) KeyError = false
            ∧ isinstance_any (Exn RuntimeError msg)
                [ValueError; KeyError; RuntimeError] = true)
  ∧ (∀ before s msg after,
       extract_prompts_from_json s = Raise (Exn RuntimeError msg) →
       process_responses (before ++ s :: after)
       = (flat_map error_of before
            ++ ProcessingError (Exn RuntimeError msg) s
            :: flat_map error_of after,
          Ok (flat_map prompts_of before ++ flat_map prompts_of after)))
  ∧ extract_prompts_from_json (lit "{}") = Ok []
  ∧ extract_prompts_from_json (quoted []) = Ok [].
Proof.
  split_and!.
  - apply extract_type_error_data.
  - apply extract_type_error_item.
  - done.
  - intros before s msg after H. by apply process_responses_skip.
  - by vm_compute.
  - by vm_compute.
Qed.

Lemma extract_prompts_from_json_wrong_shape_witness :
  (∃ msg, extract_prompts_from_json bare_record
          = Raise (Exn RuntimeError
                     (lit "Error extracting prompts from JSON: " ++ msg)))
  ∧ (∃ msg, extract_prompts_from_json (lit "[null]")
            = Raise (Exn RuntimeError
                       (lit "Error extracting prompts from JSON: " ++ msg)))
  ∧ process_responses [prompts_a_b; lit "7"]
    = ([ProcessingError
          (Exn RuntimeError
             (lit "Error extracting prompts from JSON: 'int' object is not iterable"))
          (lit "7")],
       Ok [JString (lit "a"); JString (lit "b")]).
Proof.
  destruct extract_prompts_from_json_wrong_shape
    as (Hdata & Hitem & _ & Hskip & _).
  split_and!.
  - apply (Hdata bare_record (JObject [(lit "prompt", JString (lit "a"))]));
      by vm_compute.
  - apply (Hitem (lit "[null]") [] JNull []); [by vm_compute | constructor | done].
  - apply (Hskip [prompts_a_b] (lit "7") _ []). by vm_compute.
Defined.

(** C2.  For every batch, [process_responses] returns, without raising,
    the prompts of the responses that extract, concatenated in the order of
    the responses, and logs one error for each response that does not.  In
    a batch of two where the first response extracts and the second does
    not, the result is exactly what the first one yields: a valid response
    with prompts a and b followed by a malformed one yields a and b. *)
Theorem process_responses_concat :
  (∀ responses,
     process_responses responses
     = (flat_map error_of responses, Ok (flat_map prompts_of responses)))
  ∧ (∀ r, match extract_prompts_from_json r with
          | Ok prompts => prompts_of r = prompts ∧ error_of r = []
          | Raise e => prompts_of r = [] ∧ error_of r = [ProcessingError e r]
          end)
  ∧ (∀ r1 r2 prompts e,
       extract_prompts_from_json r1 = Ok prompts →
       extract_prompts_from_json r2 = Raise e →
       process_responses [r1; r2] = ([ProcessingError e r2], Ok prompts))
  ∧ extract_prompts_from_json prompts_a_b
    = Ok [JString (lit "a"); JString (lit "b")]
  ∧ extract_prompts_from_json not_json
    = Raise (Exn ValueError (lit "Invalid JSON string: " ++ not_json))
  ∧ process_responses [prompts_a_b; not_json]
    = ([ProcessingError
          (Exn ValueError (lit "Invalid JSON string: " ++ not_json)) not_json],
       Ok [JString (lit "a"); JString (lit "b")]).
Proof.
  split_and!.
  - apply process_responses_spec.
  - intros r. unfold prompts_of, error_of. by case_match.
  - intros r1 r2 prompts e H1 H2. rewrite process_responses_spec.
    cbn [flat_map]. unfold error_of, prompts_of. rewrite H1, H2.
    by rewrite !app_nil_r.
  - by vm_compute.
  - by vm_compute.
  - by vm_compute.
Qed.

Lemma process_responses_concat_witness :
  process_responses [prompts_a_b; notprompt_x]
  = ([ProcessingError
        (Exn KeyError (lit "Missing 'prompt' key in JSON: " ++ notprompt_x))
        notprompt_x],
     Ok [JString (lit "a"); JString (lit "b")]).
Proof.
  apply (proj1 (proj2 (proj2 process_responses_concat))
           prompts_a_b notprompt_x).
  - by vm_compute.
  - by vm_compute.
Defined.

(** ** [generate_responses] *)

Section generate_facts.
Context (api : service).
Implicit Types st : gen_state.

Local Open Scope nat_scope.

(** One call, seen from the two variables of the back-off. *)
Lemma try_call_rate_limited st :
  rate_limited (api (calls st)) = true →
  try_call api st
  = (GenState (responses st) (delay st + (1 # 2))%Q (S (errors st))
       (S (calls st)) (sleeps st ++ [(delay st + (1 # 2))%Q])
       (gen_log st ++ [RateLimitWarning (delay st + (1 # 2))%Q]),
     Ok FallThrough).
Proof.
  unfold rate_limited, try_call. destruct (api (calls st)) as [t|e]; [done|].
  intros [-> ->]%andb_true_iff. done.
Qed.

Lemma try_call_other st :
  rate_limited (api (calls st)) = false →
  delay (try_call api st).1 = delay st
  ∧ errors (try_call api st).1 = errors st
  ∧ (try_call api st).2 ≠ Ok FallThrough.
Proof.
  unfold rate_limited, try_call. destruct (api (calls st)) as [t|e]; [done|].
  destruct (isinstance e Exception); [|done]. cbn. by intros ->.
Qed.

Lemma try_call_calls st : calls (try_call api st).1 = S (calls st).
Proof. unfold try_call. by repeat case_match. Qed.

Lemma try_call_fall_through st st' :
  try_call api st = (st', Ok FallThrough) →
  rate_limited (api (calls st)) = true.
Proof.
  intros H. destruct (rate_limited (api (calls st))) eqn:E; [done|].
  apply try_call_other in E as (_ & _ & E). by rewrite H in E.
Qed.

Lemma try_call_raise st st' e :
  try_call api st = (st', Raise e) →
  api (calls st) = Raises e ∧ isinstance e Exception = false.
Proof.
  unfold try_call. destruct (api (calls st)) as [t|e']; [done|].
  destruct (isinstance e' Exception) eqn:E; [by case_match|].
  by intros [= _ ->].
Qed.

(** *** The loops return *)

Lemma while_true_fuel fuel : ∀ st,
  21 - errors st ≤ fuel → 1 ≤ fuel → is_Some (while_true fuel api st).
Proof.
  induction fuel as [|fuel IH]; intros st He Hf; [lia|]. cbn [while_true].
  destruct (try_call api st) as [st' [[]|e]] eqn:Hc; [done| |done].
  pose proof (try_call_fall_through _ _ Hc) as Hrl.
  rewrite (try_call_rate_limited _ Hrl) in Hc. injection Hc as <-.
  cbn [errors]. destruct (Nat.ltb_spec 20 (S (errors st))); [done|].
  apply IH; cbn [errors]; lia.
Qed.

Lemma for_range_returns n : ∀ st, is_Some (for_range n api st).
Proof.
  induction n as [|n IH]; intros st; cbn [for_range]; [done|].
  destruct (while_true_fuel retry_fuel st) as [[st' [[]|e]] ->];
    unfold retry_fuel; try lia; [apply IH | done].
Qed.

Lemma generate_responses_returns n : is_Some (generate_responses api n).
Proof.
  unfold generate_responses.
  destruct (for_range_returns (Z.to_nat n) gen_init) as [[st [[]|e]] ->];
    done.
Qed.

(** *** Every state of a run is the state after some number of calls *)

Lemma advance_S j st : advance api (S j) st = advance api j (try_call api st).1.
Proof. unfold advance. by rewrite Nat.iter_succ_r. Qed.

Lemma advance_add i j st : advance api (i + j) st = advance api j (advance api i st).
Proof.
  unfold advance. by rewrite Nat.add_comm, Nat.iter_add.
Qed.

Lemma advance_calls j st : calls (advance api j st) = calls st + j.
Proof.
  revert st; induction j as [|j IH]; intros st; [cbn; lia|].
  rewrite advance_S, IH, try_call_calls. lia.
Qed.

Lemma while_true_advance fuel : ∀ st st' r,
  while_true fuel api st = Some (st', r) → ∃ j, st' = advance api j st.
Proof.
  induction fuel as [|fuel IH]; intros st st' r; [done|]. cbn [while_true].
  destruct (try_call api st) as [st1 [[]|e]] eqn:Hc.
  - intros [= <- _]. exists 1. cbn. by rewrite Hc.
  - case_match.
    + intros [= <- _]. exists 1. cbn. by rewrite Hc.
    + intros [j ->]%IH. exists (S j). by rewrite advance_S, Hc.
  - intros [= <- _]. exists 1. cbn. by rewrite Hc.
Qed.

Lemma for_range_advance n : ∀ st st' r,
  for_range n api st = Some (st', r) → ∃ j, st' = advance api j st.
Proof.
  induction n as [|n IH]; intros st st' r; cbn [for_range].
  - intros [= <- _]. by exists 0.
  - destruct (while_true retry_fuel api st) as [[st1 [[]|e]]|] eqn:Hw;
      [| |done].
    + apply while_true_advance in Hw as [i ->].
      intros [j ->]%IH. exists (i + j). by rewrite advance_add.
    + apply while_true_advance in Hw as [i ->]. intros [= <- _]. by exists i.
Qed.

Lemma after_calls_calls k : calls (after_calls api k) = k.
Proof. apply (advance_calls k gen_init). Qed.

Lemma generate_responses_after_calls n st r :
  generate_responses api n = Some (st, r) →
  st = after_calls api (calls st).
Proof.
  unfold generate_responses.
  destruct (for_range _ api gen_init) as [[st1 [[]|e]]|] eqn:Hf; [| |done].
  - intros [= <- _]. apply for_range_advance in Hf as [j Hj].
    rewrite Hj at 2. rewrite (advance_calls j gen_init). by cbn.
  - intros [= <- _]. apply for_range_advance in Hf as [j Hj].
    rewrite Hj at 2. rewrite (advance_calls j gen_init). by cbn.
Qed.

(** *** The delay *)

Lemma rate_limit_errors_S k :
  rate_limit_errors api (S k)
  = rate_limit_errors api k + (if rate_limited (api k) then 1 else 0).
Proof.
  unfold rate_limit_errors. rewrite seq_S, filter_app, length_app.
  f_equal. rewrite filter_cons, filter_nil. cbn [Nat.add].
  by destruct (rate_limited (api k)); case_decide.
Qed.

Lemma after_calls_S k :
  after_calls api (S k) = (try_call api (after_calls api k)).1.
Proof. done. Qed.

Lemma after_calls_step k :
  let st := after_calls api k in
  let st' := after_calls api (S k) in
  if rate_limited (api k)
  then (delay st' == delay st + (1 # 2))%Q ∧ errors st' = S (errors st)
  else delay st' = delay st ∧ errors st' = errors st.
Proof.
  cbn zeta. rewrite after_calls_S.
  pose proof (after_calls_calls k) as Hk.
  destruct (rate_limited (api k)) eqn:E; rewrite <- Hk in E.
  - by rewrite (try_call_rate_limited _ E).
  - by destruct (try_call_other _ E) as (? & ? & _).
Qed.

Lemma after_calls_errors k :
  errors (after_calls api k) = rate_limit_errors api k.
Proof.
  induction k as [|k IH]; [done|]. rewrite rate_limit_errors_S.
  pose proof (after_calls_step k) as H. cbn zeta in H.
  destruct (rate_limited (api k)); destruct H as [_ ->]; lia.
Qed.

Lemma after_calls_delay k :
  (delay (after_calls api k)
   == 3 + (1 # 2) * inject_Z (Z.of_nat (errors (after_calls api k))))%Q.
Proof.
  induction k as [|k IH]; [done|].
  pose proof (after_calls_step k) as H. cbn zeta in H.
  destruct (rate_limited (api k)); destruct H as [Hd ->].
  - rewrite Hd, IH, Nat2Z.inj_succ. unfold Z.succ. rewrite inject_Z_plus.
    ring.
  - by rewrite Hd.
Qed.

Lemma after_calls_delay_mono j k :
  j ≤ k → (delay (after_calls api j) <= delay (after_calls api k))%Q.
Proof.
  induction 1 as [|k _ IH]; [apply Qle_refl|].
  eapply Qle_trans; [exact IH|].
  pose proof (after_calls_step k) as H. cbn zeta in H.
  destruct (rate_limited (api k)); destruct H as [Hd _].
  - rewrite Hd. rewrite <- (Qplus_0_r (delay (after_calls api k))) at 1.
    by apply Qplus_le_r.
  - rewrite Hd. apply Qle_refl.
Qed.

(** *** The error counter is bounded *)

Lemma while_true_errors fuel : ∀ st st' r,
  while_true fuel api st = Some (st', r) →
  errors st' ≤ Nat.max (S (errors st)) 21.
Proof.
  induction fuel as [|fuel IH]; intros st st' r; [done|]. cbn [while_true].
  destruct (try_call api st) as [st1 [[]|e]] eqn:Hc.
  - intros [= <- _].
    destruct (rate_limited (api (calls st))) eqn:E.
    + rewrite (try_call_rate_limited _ E) in Hc. by injection Hc.
    + destruct (try_call_other _ E) as (_ & He & _). rewrite Hc in He.
      cbn in He. lia.
  - pose proof (try_call_fall_through _ _ Hc) as E.
    rewrite (try_call_rate_limited _ E) in Hc. injection Hc as <-.
    cbn [errors]. destruct (Nat.ltb_spec 20 (S (errors st))).
    + intros [= <- _]. cbn. lia.
    + intros H'%IH. cbn in H'. lia.
  - intros [= <- _].
    destruct (rate_limited (api (calls st))) eqn:E.
    + rewrite (try_call_rate_limited _ E) in Hc. by injection Hc.
    + destruct (try_call_other _ E) as (_ & He & _). rewrite Hc in He.
      cbn in He. lia.
Qed.

Lemma for_range_errors n : ∀ st st' r,
  for_range n api st = Some (st', r) →
  errors st' ≤ Nat.max (errors st) 20 + n.
Proof.
  induction n as [|n IH]; intros st st' r; cbn [for_range].
  - intros [= <- _]. lia.
  - destruct (while_true retry_fuel api st) as [[st1 [[]|e]]|] eqn:Hw;
      [| |done]; apply while_true_errors in Hw.
    + intros H%IH. lia.
    + intros [= <- _]. lia.
Qed.

Lemma generate_responses_errors n st r :
  generate_responses api n = Some (st, r) → errors st ≤ 20 + Z.to_nat n.
Proof.
  unfold generate_responses.
  destruct (for_range _ api gen_init) as [[st1 [[]|e]]|] eqn:Hf; [| |done];
    apply for_range_errors in Hf; cbn in Hf; intros [= <- _]; lia.
Qed.

(** Once the counter has reached 20, a slot makes one call, whatever the
    outcome of the call: a rate-limit failure takes the counter past 20,
    and the test of line 66 then leaves the loop. *)
Lemma while_true_past_ceiling fuel st st' r :
  20 ≤ errors st → while_true (S fuel) api st = Some (st', r) →
  calls st' = S (calls st).
Proof.
  intros He. cbn [while_true]. pose proof (try_call_calls st) as Hcalls.
  destruct (try_call api st) as [st1 [[]|e]] eqn:Hc; cbn in Hcalls.
  - by intros [= <- _].
  - pose proof (try_call_fall_through _ _ Hc) as Hrl.
    rewrite (try_call_rate_limited _ Hrl) in Hc. injection Hc as <-.
    cbn [errors]. destruct (Nat.ltb_spec 20 (S (errors st))); [|lia].
    by intros [= <- _].
  - by intros [= <- _].
Qed.

(** *** A service that only ever answers with the rate limit *)

Lemma generate_responses_raise n st e :
  generate_responses api n = Some (st, Raise e) →
  ∃ k, api k = Raises e ∧ isinstance e Exception = false.
Proof.
  assert (∀ fuel st st', while_true fuel api st = Some (st', Raise e) →
            ∃ k, api k = Raises e ∧ isinstance e Exception = false) as Hw.
  { induction fuel as [|fuel IH]; intros st0 st'; [done|]. cbn [while_true].
    destruct (try_call api st0) as [st1 [[]|e']] eqn:Hc; [done| |].
    - case_match; [done|]. apply IH.
    - intros [= _ ->]. apply try_call_raise in Hc. eauto. }
  assert (∀ m st st', for_range m api st = Some (st', Raise e) →
            ∃ k, api k = Raises e ∧ isinstance e Exception = false) as Hf.
  { induction m as [|m IH]; intros st0 st'; [done|]. cbn [for_range].
    destruct (while_true retry_fuel api st0) as [[st1 [[]|e']]|] eqn:H;
      [apply IH | | done].
    intros [= _ ->]. eauto. }
  unfold generate_responses.
  destruct (for_range _ api gen_init) as [[st1 [[]|e']]|] eqn:H; try done.
  intros [= _ ->]. eauto.
Qed.

Section all_rate_limited.
Hypothesis Hall : ∀ k, rate_limited (api k) = true.

Lemma while_true_all_rate_limited fuel : ∀ st,
  21 - errors st ≤ fuel → 1 ≤ fuel →
  ∃ st', while_true fuel api st = Some (st', Ok ())
         ∧ responses st' = responses st
         ∧ errors st' = Nat.max (S (errors st)) 21
         ∧ calls st' = calls st + (errors st' - errors st).
Proof using Hall.
  induction fuel as [|fuel IH]; intros st He Hf; [lia|].
  cbn [while_true]. rewrite (try_call_rate_limited _ (Hall _)).
  cbn [errors]. destruct (Nat.ltb_spec 20 (S (errors st))).
  - eexists. split; [done|]. cbn. split_and!; [done|lia..].
  - edestruct IH as (st' & -> & Hr & Hes & Hc); [| |exists st'].
    + cbn. lia.
    + lia.
    + cbn in *. split_and!; [done..|lia|lia].
Qed.

Lemma for_range_all_rate_limited n : ∀ st,
  21 ≤ errors st →
  ∃ st', for_range n api st = Some (st', Ok ())
         ∧ responses st' = responses st
         ∧ errors st' = errors st + n
         ∧ calls st' = calls st + n.
Proof using Hall.
  induction n as [|n IH]; intros st He; cbn [for_range].
  - exists st. split_and!; [done..|lia|lia].
  - destruct (while_true_all_rate_limited retry_fuel st)
      as (st1 & -> & Hr & Hes & Hc); [unfold retry_fuel; lia..|].
    destruct (IH st1) as (st' & -> & Hr' & Hes' & Hc'); [lia|].
    exists st'. split_and!; [done|congruence|lia|lia].
Qed.

Lemma generate_responses_all_rate_limited (n : Z) :
  (1 ≤ n)%Z →
  ∃ st, generate_responses api n = Some (st, Ok [])
        ∧ errors st = Z.to_nat (20 + n)
        ∧ calls st = Z.to_nat (20 + n).
Proof using Hall.
  intros Hn. unfold generate_responses.
  destruct (Z.to_nat n) as [|m] eqn:Hm; [lia|]. cbn [for_range].
  destruct (while_true_all_rate_limited retry_fuel gen_init)
    as (st1 & -> & Hr & Hes & Hc); [unfold retry_fuel; cbn; lia..|].
  cbn in Hr, Hes, Hc.
  destruct (for_range_all_rate_limited m st1)
    as (st' & -> & Hr' & Hes' & Hc'); [lia|].
  exists st'. rewrite Hr', Hr. split_and!; [done|lia|lia].
Qed.
End all_rate_limited.
End generate_facts.

(** The additions of one half are exact on binary64 numbers, as far as a
    run of a thousand slots can take the counter. *)
Lemma float_delay_exact_upto k : (k ≤ 1020)%nat → float_delay_exact k = true.
Proof.
  intros Hk.
  assert (forallb float_delay_exact (seq 0 1021) = true) as H
    by (vm_compute; reflexivity).
  apply (proj1 (forallb_forall _ _) H), in_seq. lia.
Qed.

(** C1, as stated, fails: the generation does not abort once the counter
    has passed 20.  With every call rate-limited and the ten slots of
    [main], the counter is at 21 after 21 calls, at the end of the first
    slot, and the run goes on to 30 calls and a counter of 30; and when
    the service recovers after the 21st failure, the nine slots that are
    left are filled. *)
Lemma generation_goes_on_past_the_ceiling :
  (∃ st, generate_responses always_rate_limited GENERATION_COUNT
         = Some (st, Ok [])
         ∧ errors (after_calls always_rate_limited 21) = 21%nat
         ∧ errors st = 30%nat ∧ calls st = 30%nat)
  ∧ (∃ st, generate_responses rate_limited_at_first GENERATION_COUNT
           = Some (st, Ok (replicate 9 (lit "ok")))
           ∧ errors st = 21%nat ∧ calls st = 30%nat).
Proof.
  split.
  - eexists. split; [by vm_compute|]. split_and!; by vm_compute.
  - eexists. split; [by vm_compute|]. done.
Qed.

(** C1, amended.  When every call fails with a rate-limit error, the
    counter reaches 21 with the 21st call, which ends the first slot; from
    then on no call is retried, but the generation goes on: the [break]
    of line 67 leaves the [while] loop only, and each slot that is left
    still makes one call.  For [n >= 1] slots the run ends without an
    exception and with no response, the counter and the number of calls
    both at [20 + n], 30 for the ten slots of [main].  For any service, a
    slot entered with the counter at 20 or more makes exactly one call;
    and when the service recovers after the 21st failure the nine slots
    that are left are filled. *)
Theorem generate_responses_rate_limit_ceiling :
  (∀ api n,
     (∀ k, rate_limited (api k) = true) → (1 ≤ n)%Z →
     ∃ st, generate_responses api n = Some (st, Ok [])
           ∧ errors st = Z.to_nat (20 + n)
           ∧ calls st = Z.to_nat (20 + n))
  ∧ (∀ api,
       (∀ k, rate_limited (api k) = true) →
       ∃ st, while_true retry_fuel api gen_init = Some (st, Ok ())
             ∧ errors st = 21%nat ∧ calls st = 21%nat ∧ responses st = [])
  ∧ (∀ api st st' r,
       (20 ≤ errors st)%nat →
       while_true retry_fuel api st = Some (st', r) →
       calls st' = S (calls st))
  ∧ (∃ st, generate_responses always_rate_limited GENERATION_COUNT
           = Some (st, Ok [])
           ∧ errors st = 30%nat ∧ calls st = 30%nat)
  ∧ (∃ st, generate_responses rate_limited_at_first GENERATION_COUNT
           = Some (st, Ok (replicate 9 (lit "ok")))
           ∧ errors st = 21%nat ∧ calls st = 30%nat).
Proof.
  split_and!.
  - intros api n Hall. by apply generate_responses_all_rate_limited.
  - intros api Hall.
    destruct (while_true_all_rate_limited api Hall retry_fuel gen_init)
      as (st & Hw & Hr & He & Hc); [unfold retry_fuel; cbn; lia..|].
    exists st. cbn in Hr, He, Hc. split_and!; [done|lia|lia|done].
  - intros api st st' r. apply while_true_past_ceiling.
  - eexists. split; [by vm_compute|]. done.
  - eexists. split; [by vm_compute|]. done.
Qed.

Lemma generate_responses_rate_limit_ceiling_witness :
  ∃ st, generate_responses always_rate_limited 2 = Some (st, Ok [])
        ∧ errors st = 22%nat ∧ calls st = 22%nat.
Proof.
  apply (proj1 generate_responses_rate_limit_ceiling always_rate_limited 2%Z).
  - intros k. reflexivity.
  - lia.
Defined.

(** C7.  The delay starts at 3; a call that fails with a rate-limit error
    adds one half to it and one to the error counter, and any other call
    leaves both as they are.  So after any number of calls the counter is
    the number of rate-limit failures so far, the delay is 3 plus half the
    counter, and the delay never decreases.  The state a run ends in is the
    state after the calls it made, and its counter is at most 20 plus the
    number of slots.  The delay is a binary64 number in the interpreter; up
    to 1020 errors its additions are exact, so it is the same number. *)
Theorem generate_responses_delay :
  (delay gen_init = 3)%Q
  ∧ (∀ api k,
       let st := after_calls api k in
       let st' := after_calls api (S k) in
       if rate_limited (api k)
       then (delay st' == delay st + (1 # 2))%Q ∧ errors st' = S (errors st)
       else delay st' = delay st ∧ errors st' = errors st)
  ∧ (∀ api k,
       errors (after_calls api k) = rate_limit_errors api k
       ∧ (delay (after_calls api k)
          == 3 + (1 # 2) * inject_Z (Z.of_nat (rate_limit_errors api k)))%Q)
  ∧ (∀ api j k,
       (j ≤ k)%nat →
       (delay (after_calls api j) <= delay (after_calls api k))%Q)
  ∧ (∀ api n, ∃ st r,
       generate_responses api n = Some (st, r)
       ∧ st = after_calls api (calls st)
       ∧ (errors st ≤ 20 + Z.to_nat n)%nat
       ∧ (delay st == 3 + (1 # 2) * inject_Z (Z.of_nat (errors st)))%Q)
  ∧ (∀ k, (k ≤ 1020)%nat →
       ∃ q, float_value (float_delay k) = Some q
            ∧ (q == 3 + (1 # 2) * inject_Z (Z.of_nat k))%Q).
Proof.
  split_and!.
  - done.
  - apply after_calls_step.
  - intros api k. split; [apply after_calls_errors|].
    rewrite <- after_calls_errors. apply after_calls_delay.
  - apply after_calls_delay_mono.
  - intros api n.
    destruct (generate_responses_returns api n) as [[st r] H].
    exists st, r. split; [done|].
    pose proof (generate_responses_after_calls _ _ _ _ H) as Hst.
    split_and!; [done | by eapply generate_responses_errors |].
    rewrite Hst at 1 2. apply after_calls_delay.
  - intros k Hk%float_delay_exact_upto. unfold float_delay_exact in Hk.
    destruct (float_value (float_delay k)) as [q|]; [|done].
    exists q. split; [done|]. by apply Qeq_bool_iff.
Qed.

Lemma generate_responses_delay_witness :
  (delay (after_calls rate_limited_at_first 5)
   <= delay (after_calls rate_limited_at_first 25))%Q.
Proof.
  apply (proj1 (proj2 (proj2 (proj2 generate_responses_delay)))
           rate_limited_at_first 5%nat 25%nat).
  lia.
Defined.

(** ** Files *)

Section file_facts.
Implicit Types fs : filesystem.
Implicit Types path text : pystr.

Lemma lines_aux_line r : ∀ cur rest,
  LF ∉ r →
  lines_aux cur (r ++ LF :: rest)
  = ((reverse cur ++ r) :: (lines_aux [] rest).1, (lines_aux [] rest).2).
Proof.
  induction r as [|c r IH]; intros cur rest Hr; cbn [app lines_aux].
  - rewrite N.eqb_refl, app_nil_r. by destruct (lines_aux [] rest).
  - apply not_elem_of_cons in Hr as [Hc Hr].
    destruct (N.eqb_spec c LF) as [->|_]; [done|].
    rewrite IH by done. by rewrite reverse_cons, <- app_assoc.
Qed.

Lemma lines_newline_terminated items :
  Forall (λ r, LF ∉ r) items →
  lines (newline_terminated items) = items
  ∧ unterminated (newline_terminated items) = [].
Proof.
  unfold lines, unterminated, newline_terminated.
  induction 1 as [|r items Hr _ [IH1 IH2]]; [done|].
  cbn [map concat]. rewrite <- app_assoc. cbn [app].
  rewrite lines_aux_line by done. cbn. by rewrite IH1, IH2.
Qed.

(** A text has as many lines as it has line feeds. *)
Lemma lines_aux_length (s : list N) : ∀ cur,
  length (lines_aux cur s).1 = length (filter (λ c : N, c = 10%N) s).
Proof.
  induction s as [|c s IH]; intros cur; [done|]. cbn [lines_aux].
  rewrite filter_cons. unfold LF. destruct (N.eqb_spec c 10) as [->|Hc].
  - rewrite decide_True by done. specialize (IH []).
    destruct (lines_aux [] s). cbn in *. by rewrite IH.
  - rewrite decide_False by done. apply IH.
Qed.

Lemma lines_length_newline_terminated (items : list (list N)) :
  length (lines (newline_terminated items))
  = (length items + length (filter (λ c : N, c = 10%N) (concat items)))%nat.
Proof.
  unfold lines. rewrite lines_aux_length. unfold newline_terminated.
  induction items as [|r items IH]; [done|]. cbn [map concat length].
  rewrite !filter_app, !length_app, IH, filter_cons, filter_nil.
  rewrite decide_True by done. cbn. lia.
Qed.

Lemma file_write_spec fs path text content :
  fs !! path = Some (File content) →
  existsb is_surrogate text = false →
  file_write fs path text
  = (<[path := File (content ++ text)]> fs, Ok ()).
Proof.
  intros Hf Hs. unfold file_write. rewrite Hs. f_equal.
  apply map_eq. intros p. destruct (decide (p = path)) as [->|Hp].
  - by rewrite lookup_alter_eq, lookup_insert_eq, Hf.
  - by rewrite lookup_alter_ne, lookup_insert_ne.
Qed.

Lemma file_write_raise fs path text fs' e :
  file_write fs path text = (fs', Raise e) → fs' = fs.
Proof. unfold file_write. case_match; by intros [= <-]. Qed.

Lemma file_write_ok fs path text fs' :
  file_write fs path text = (fs', Ok ()) →
  existsb is_surrogate text = false.
Proof. unfold file_write. by case_match. Qed.

(** What a run of the response loop leaves behind: the lines of the
    responses it got to, after what the file held. *)
Lemma write_each_response_spec path rs : ∀ fs content,
  fs !! path = Some (File content) →
  ∃ written,
    written `prefix_of` rs
    ∧ (write_each_response fs path rs).1
      = <[path := File (content ++ newline_terminated written)]> fs
    ∧ ((write_each_response fs path rs).2 = Ok () → written = rs)
    ∧ (Forall (λ r, existsb is_surrogate r = false) rs →
       (write_each_response fs path rs).2 = Ok ()).
Proof.
  induction rs as [|r rs IH]; intros fs content Hf; cbn [write_each_response].
  - exists []. split_and!; try done. cbn.
    by rewrite app_nil_r, insert_id.
  - destruct (file_write fs path (r ++ [LF])) as [fs' [[]|e]] eqn:Hw.
    + pose proof (file_write_ok _ _ _ _ Hw) as Hs.
      rewrite (file_write_spec _ _ _ _ Hf Hs) in Hw. injection Hw as <-.
      destruct (IH (<[path := File (content ++ r ++ [LF])]> fs)
                  (content ++ r ++ [LF]))
        as (written & Hpre & Hfs & Hok & Hall); [by rewrite lookup_insert_eq|].
      exists (r :: written). split_and!.
      * by apply prefix_cons.
      * rewrite Hfs, insert_insert_eq. unfold newline_terminated. cbn.
        by rewrite <- !app_assoc.
      * intros H. by rewrite Hok.
      * intros [_ H]%Forall_cons. by apply Hall.
    + apply file_write_raise in Hw as Hfs. subst fs'.
      exists []. split_and!.
      * apply prefix_nil.
      * cbn. by rewrite app_nil_r, insert_id.
      * done.
      * intros [Hr _]%Forall_cons. cbn beta in Hr.
        unfold file_write in Hw. by rewrite existsb_app, Hr in Hw.
Qed.

Lemma write_each_prompt_strings path strs : ∀ fs,
  write_each_prompt fs path (JString <$> strs)
  = write_each_response fs path strs.
Proof.
  induction strs as [|r strs IH]; intros fs; cbn; [done|].
  destruct (file_write fs path (r ++ [LF])) as [fs' [[]|e]]; [apply IH|done].
Qed.

(** Whatever the prompt loop does, it only adds to the end of the file. *)
Lemma write_each_prompt_frame path ps : ∀ fs content,
  fs !! path = Some (File content) →
  ∃ added, (write_each_prompt fs path ps).1
           = <[path := File (content ++ added)]> fs.
Proof.
  induction ps as [|p ps IH]; intros fs content Hf; cbn [write_each_prompt].
  - exists []. cbn. by rewrite app_nil_r, insert_id.
  - destruct (add_newline p) as [line|e];
      [|exists []; cbn; by rewrite app_nil_r, insert_id].
    destruct (file_write fs path line) as [fs' [[]|e]] eqn:Hw.
    + pose proof (file_write_ok _ _ _ _ Hw) as Hs.
      rewrite (file_write_spec _ _ _ _ Hf Hs) in Hw. injection Hw as <-.
      destruct (IH (<[path := File (content ++ line)]> fs) (content ++ line))
        as [added Hfs]; [by rewrite lookup_insert_eq|].
      exists (line ++ added). by rewrite Hfs, insert_insert_eq, app_assoc.
    + apply file_write_raise in Hw as ->.
      exists []. cbn. by rewrite app_nil_r, insert_id.
Qed.

Lemma wrap_write_error_ok what path r :
  wrap_write_error what path r = Ok () ↔ r = Ok ().
Proof.
  unfold wrap_write_error. destruct r as [[]|e]; cbn; [done|].
  by case_match.
Qed.

Lemma write_raw_responses_ok rs path fs fs' :
  write_raw_responses_to_file rs path fs = (fs', Ok ()) →
  fs' = <[path := File (newline_terminated rs)]> fs.
Proof.
  unfold write_raw_responses_to_file, open_truncate.
  destruct (fs !! path) as [[content|e]|] eqn:Hf.
  1,3: destruct (write_each_response_spec path rs
                   (<[path := File []]> fs) [])
         as (written & _ & Hfs & Hok & _); [by rewrite lookup_insert_eq|];
       destruct (write_each_response _ path rs) as [fs1 r];
       intros [= <- Hr%wrap_write_error_ok]; cbn in Hfs, Hok;
       by rewrite Hfs, Hok, insert_insert_eq.
  cbn. intros [= _ Hr]. by destruct (isinstance e Exception).
Qed.

Lemma write_raw_responses_succeeds rs path fs :
  (∀ e, fs !! path ≠ Some (Faulty e)) →
  Forall (λ r, existsb is_surrogate r = false) rs →
  (write_raw_responses_to_file rs path fs).2 = Ok ().
Proof.
  intros Hf Hrs. unfold write_raw_responses_to_file, open_truncate.
  destruct (fs !! path) as [[content|e]|] eqn:Hp.
  1,3: destruct (write_each_response_spec path rs
                   (<[path := File []]> fs) [])
         as (written & _ & _ & _ & Hall); [by rewrite lookup_insert_eq|];
       destruct (write_each_response _ path rs) as [fs1 r];
       cbn in *; by rewrite Hall.
  by destruct (Hf e).
Qed.

Lemma write_prompts_ok strs path fs fs' :
  write_prompts_to_file (JString <$> strs) path fs = (fs', Ok ()) →
  fs' = <[path := File (default [] (content_of fs path)
                        ++ newline_terminated strs)]> fs.
Proof.
  unfold write_prompts_to_file, open_append, content_of.
  destruct (fs !! path) as [[content|e]|] eqn:Hf.
  - destruct (write_each_response_spec path strs fs content Hf)
      as (written & _ & Hfs & Hok & _).
    rewrite write_each_prompt_strings.
    destruct (write_each_response _ path strs) as [fs1 r].
    intros [= <- Hr%wrap_write_error_ok]. cbn in *. by rewrite Hfs, Hok.
  - cbn. intros [= _ Hr]. by destruct (isinstance e Exception).
  - destruct (write_each_response_spec path strs
                (<[path := File []]> fs) [])
      as (written & _ & Hfs & Hok & _); [by rewrite lookup_insert_eq|].
    rewrite write_each_prompt_strings.
    destruct (write_each_response _ path strs) as [fs1 r].
    intros [= <- Hr%wrap_write_error_ok]. cbn in *.
    by rewrite Hfs, Hok, insert_insert_eq.
Qed.

Lemma write_prompts_succeeds strs path fs :
  (∀ e, fs !! path ≠ Some (Faulty e)) →
  Forall (λ r, existsb is_surrogate r = false) strs →
  (write_prompts_to_file (JString <$> strs) path fs).2 = Ok ().
Proof.
  intros Hf Hrs. unfold write_prompts_to_file, open_append.
  destruct (fs !! path) as [[content|e]|] eqn:Hp;
    [| by destruct (Hf e) |]; rewrite write_each_prompt_strings.
  - destruct (write_each_response_spec path strs fs content Hp)
      as (written & _ & _ & _ & Hall).
    destruct (write_each_response _ path strs) as [fs1 r].
    cbn in *. by rewrite Hall.
  - destruct (write_each_response_spec path strs
                (<[path := File []]> fs) [])
      as (written & _ & _ & _ & Hall); [by rewrite lookup_insert_eq|].
    destruct (write_each_response _ path strs) as [fs1 r].
    cbn in *. by rewrite Hall.
Qed.

(** Whether or not it raises, [write_prompts_to_file] keeps what the file
    held and touches no other file. *)
Lemma write_prompts_frame ps path fs :
  (∀ old, content_of fs path = Some old →
     ∃ added, content_of (write_prompts_to_file ps path fs).1 path
              = Some (old ++ added))
  ∧ (∀ p, p ≠ path →
       (write_prompts_to_file ps path fs).1 !! p = fs !! p).
Proof.
  unfold write_prompts_to_file, open_append, content_of.
  destruct (fs !! path) as [[content|e]|] eqn:Hf.
  - destruct (write_each_prompt_frame path ps fs content Hf) as [added Hfs].
    destruct (write_each_prompt fs path ps) as [fs1 r]. cbn in *. subst fs1.
    split.
    + intros old [= <-]. exists added. by rewrite lookup_insert_eq.
    + intros p Hp. by rewrite lookup_insert_ne.
  - cbn. by rewrite Hf.
  - destruct (write_each_prompt_frame path ps (<[path := File []]> fs) [])
      as [added Hfs]; [by rewrite lookup_insert_eq|].
    destruct (write_each_prompt _ path ps) as [fs1 r]. cbn in *. subst fs1.
    split; [done|]. intros p Hp. by rewrite !lookup_insert_ne.
Qed.
End file_facts.

(** C5, as stated, fails: one response with a line feed inside leaves two
    lines in the raw-response file. *)
Lemma write_raw_responses_embedded_newline :
  let response := lit "a" ++ [LF] ++ lit "b" in
  let fs := (write_raw_responses_to_file [response] RAW_RESPONSES_FILE ∅).1 in
  (write_raw_responses_to_file [response] RAW_RESPONSES_FILE ∅).2 = Ok ()
  ∧ content_of fs RAW_RESPONSES_FILE = Some (lit "a" ++ [LF] ++ lit "b" ++ [LF])
  ∧ lines (lit "a" ++ [LF] ++ lit "b" ++ [LF]) = [lit "a"; lit "b"]
  ∧ length (lines (lit "a" ++ [LF] ++ lit "b" ++ [LF])) ≠ length [response].
Proof. cbn zeta. split_and!; by vm_compute. Qed.

(** C5, amended.  When [write_raw_responses_to_file] returns, the file at
    the path holds exactly the responses, each followed by a line feed, in
    order, whatever it held before, and no other file has changed; it
    returns whenever the path can be opened and no response holds a
    surrogate.  That text has as many lines as there are responses plus
    line feeds inside them: exactly one line per response, equal to the
    response, when no response contains a line feed. *)
Theorem write_raw_responses_to_file_content :
  (∀ responses path fs fs',
     write_raw_responses_to_file responses path fs = (fs', Ok ()) →
     content_of fs' path = Some (newline_terminated responses)
     ∧ ∀ p, p ≠ path → fs' !! p = fs !! p)
  ∧ (∀ responses path fs,
       (∀ e, fs !! path ≠ Some (Faulty e)) →
       Forall (λ r, existsb is_surrogate r = false) responses →
       (write_raw_responses_to_file responses path fs).2 = Ok ())
  ∧ (∀ responses : list (list N),
       length (lines (newline_terminated responses))
       = (length responses
          + length (filter (λ c : N, c = 10%N) (concat responses)))%nat)
  ∧ (∀ responses,
       Forall (λ r, LF ∉ r) responses →
       lines (newline_terminated responses) = responses
       ∧ unterminated (newline_terminated responses) = []).
Proof.
  split_and!.
  - intros responses path fs fs' ->%write_raw_responses_ok. split.
    + unfold content_of. by rewrite lookup_insert_eq.
    + intros p Hp. by rewrite lookup_insert_ne.
  - apply write_raw_responses_succeeds.
  - apply lines_length_newline_terminated.
  - apply lines_newline_terminated.
Qed.

Lemma write_raw_responses_to_file_content_witness :
  let out := write_raw_responses_to_file [lit "x"; lit "y"] RAW_RESPONSES_FILE
               {[ RAW_RESPONSES_FILE := File (lit "stale") ]} in
  out.2 = Ok ()
  ∧ content_of out.1 RAW_RESPONSES_FILE
    = Some (newline_terminated [lit "x"; lit "y"])
  ∧ lines (newline_terminated [lit "x"; lit "y"]) = [lit "x"; lit "y"].
Proof.
  cbn zeta.
  destruct write_raw_responses_to_file_content as (Hok & Hret & _ & Hlines).
  split_and!.
  - apply Hret; [intros e; by vm_compute | repeat constructor].
  - apply (Hok [lit "x"; lit "y"] RAW_RESPONSES_FILE
             {[ RAW_RESPONSES_FILE := File (lit "stale") ]}
             (write_raw_responses_to_file [lit "x"; lit "y"] RAW_RESPONSES_FILE
                {[ RAW_RESPONSES_FILE := File (lit "stale") ]}).1).
    vm_compute. reflexivity.
  - apply (Hlines [lit "x"; lit "y"]).
    repeat (constructor; [apply (bool_decide_unpack _); by vm_compute|]).
    constructor.
Defined.

(** C6.  When [write_prompts_to_file] returns, the file at the path holds
    what it held before followed by the prompts, each with a line feed, in
    order; whether it returns or raises, what the file held is still at its
    start and no other file has changed.  Two runs on a path that does not
    exist yet, with prompt a and then prompt b, leave the two lines a and
    b. *)
Theorem write_prompts_to_file_appends :
  (∀ prompts path fs fs',
     write_prompts_to_file (JString <$> prompts) path fs = (fs', Ok ()) →
     content_of fs' path
     = Some (default [] (content_of fs path) ++ newline_terminated prompts)
     ∧ ∀ p, p ≠ path → fs' !! p = fs !! p)
  ∧ (∀ prompts path fs,
       (∀ e, fs !! path ≠ Some (Faulty e)) →
       Forall (λ r, existsb is_surrogate r = false) prompts →
       (write_prompts_to_file (JString <$> prompts) path fs).2 = Ok ())
  ∧ (∀ prompts path fs,
       (∀ old, content_of fs path = Some old →
          ∃ added, content_of (write_prompts_to_file prompts path fs).1 path
                   = Some (old ++ added))
       ∧ (∀ p, p ≠ path →
            (write_prompts_to_file prompts path fs).1 !! p = fs !! p))
  ∧ (let run1 := write_prompts_to_file [JString (lit "a")] OUTPUT_FILE ∅ in
     let run2 := write_prompts_to_file [JString (lit "b")] OUTPUT_FILE run1.1 in
     run1.2 = Ok () ∧ run2.2 = Ok ()
     ∧ content_of run2.1 OUTPUT_FILE = Some (lit "a" ++ [LF] ++ lit "b" ++ [LF])
     ∧ lines (lit "a" ++ [LF] ++ lit "b" ++ [LF]) = [lit "a"; lit "b"]
     ∧ unterminated (lit "a" ++ [LF] ++ lit "b" ++ [LF]) = []).
Proof.
  split_and!.
  - intros prompts path fs fs' ->%write_prompts_ok. split.
    + unfold content_of at 1. by rewrite lookup_insert_eq.
    + intros p Hp. by rewrite lookup_insert_ne.
  - apply write_prompts_succeeds.
  - apply write_prompts_frame.
  - cbn zeta. split_and!; by vm_compute.
Qed.

Lemma write_prompts_to_file_appends_witness :
  let fs := {[ OUTPUT_FILE := File (lit "kept" ++ [LF]) ]} in
  let out := write_prompts_to_file (JString <$> [lit "a"; lit "b"])
               OUTPUT_FILE fs in
  out.2 = Ok ()
  ∧ content_of fs OUTPUT_FILE = Some (lit "kept" ++ [LF])
  ∧ content_of out.1 OUTPUT_FILE
    = Some (default [] (content_of fs OUTPUT_FILE)
            ++ newline_terminated [lit "a"; lit "b"]).
Proof.
  cbn zeta. destruct write_prompts_to_file_appends as (Hok & Hret & _ & _).
  split_and!.
  - apply Hret; [intros e; by vm_compute | repeat constructor].
  - by vm_compute.
  - apply (Hok [lit "a"; lit "b"] OUTPUT_FILE
             {[ OUTPUT_FILE := File (lit "kept" ++ [LF]) ]}
             (write_prompts_to_file (JString <$> [lit "a"; lit "b"])
                OUTPUT_FILE {[ OUTPUT_FILE := File (lit "kept" ++ [LF]) ]}).1).
    vm_compute. reflexivity.
Defined.

(** ** [str.strip] *)

Section strip_facts.
Implicit Types s : pystr.

Lemma lstrip_spec s :
  ∃ l, s = l ++ lstrip s
       ∧ Forall (λ c, isspace c = true) l
       ∧ ∀ c, head (lstrip s) = Some c → isspace c = false.
Proof.
  induction s as [|c s (l & Hs & Hl & Hh)]; cbn [lstrip].
  - exists []. by split_and!.
  - destruct (isspace c) eqn:Hc.
    + exists (c :: l). split_and!; [by rewrite Hs at 1 | by constructor | done].
    + exists []. split_and!; [done | constructor |]. by intros ? [= <-].
Qed.

Lemma head_reverse s : head (reverse s) = last s.
Proof. by rewrite <- last_reverse, reverse_involutive. Qed.

Lemma rstrip_spec s :
  ∃ r, s = rstrip s ++ r
       ∧ Forall (λ c, isspace c = true) r
       ∧ ∀ c, last (rstrip s) = Some c → isspace c = false.
Proof.
  unfold rstrip. destruct (lstrip_spec (reverse s)) as (l & Hs & Hl & Hh).
  exists (reverse l). split_and!.
  - by rewrite <- reverse_app, <- Hs, reverse_involutive.
  - by apply Forall_reverse.
  - intros c. rewrite last_reverse. apply Hh.
Qed.

(** [strip] cuts white space, and nothing else, from both ends. *)
Lemma strip_spec s :
  ∃ l r, s = l ++ strip s ++ r
         ∧ Forall (λ c, isspace c = true) l
         ∧ Forall (λ c, isspace c = true) r
         ∧ (∀ c, head (strip s) = Some c → isspace c = false)
         ∧ (∀ c, last (strip s) = Some c → isspace c = false).
Proof.
  unfold strip. destruct (lstrip_spec s) as (l & Hs & Hl & Hh).
  destruct (rstrip_spec (lstrip s)) as (r & Ht & Hr & Hlast).
  exists l, r. split_and!; try done.
  - by rewrite <- Ht.
  - intros c Hc. apply Hh. rewrite Ht.
    destruct (rstrip (lstrip s)); [done|]. exact Hc.
Qed.
End strip_facts.

(** ** Configuration *)

(** C8.  [load_api_key] raises exactly when, once the settings file has
    been loaded, the variable [GOOGLE_API_KEY] is unset or empty; what it
    raises is a [ValueError] whose message ends with the name of the
    variable; otherwise it returns the value of the variable as it is.  A
    value already in the environment wins over the settings file. *)
Theorem load_api_key_spec :
  ∀ dotenv env : environ,
    let env' := load_dotenv dotenv env in
    let out := load_api_key dotenv env in
    out.1 = env'
    ∧ getenv env' API_KEY_ENV_VAR
      = match getenv env API_KEY_ENV_VAR with
        | Some v => Some v
        | None => getenv dotenv API_KEY_ENV_VAR
        end
    ∧ ((getenv env' API_KEY_ENV_VAR = None
        ∨ getenv env' API_KEY_ENV_VAR = Some [])
       ↔ ∃ e, out.2 = Raise e)
    ∧ (∀ e, out.2 = Raise e →
         e = Exn ValueError
               (lit "API key not found in environment variable: "
                ++ API_KEY_ENV_VAR)
         ∧ contains API_KEY_ENV_VAR (exn_msg e) = true)
    ∧ (∀ v, getenv env' API_KEY_ENV_VAR = Some v → v ≠ [] → out.2 = Ok v).
Proof.
  intros dotenv env env' out. subst env' out. unfold load_api_key.
  cbn [fst snd]. split_and!.
  - done.
  - unfold getenv, load_dotenv. rewrite lookup_union.
    by destruct (env !! API_KEY_ENV_VAR), (dotenv !! API_KEY_ENV_VAR).
  - destruct (getenv _ API_KEY_ENV_VAR) as [[|c v]|]; split;
      try (intros [|]; done); try (by intros [e ?]); eauto.
  - intros e.
    destruct (getenv _ API_KEY_ENV_VAR) as [[|c v]|]; try done;
      intros [= <-]; by vm_compute.
  - intros v -> Hv. by destruct v.
Qed.

Lemma load_api_key_spec_witness :
  (load_api_key {[ API_KEY_ENV_VAR := lit "from-file" ]}
     {[ API_KEY_ENV_VAR := lit "from-env" ]}).2 = Ok (lit "from-env").
Proof.
  apply (load_api_key_spec {[ API_KEY_ENV_VAR := lit "from-file" ]}
           {[ API_KEY_ENV_VAR := lit "from-env" ]}).
  - by vm_compute.
  - done.
Defined.

(** *** Line ends *)

Section newline_facts.
Implicit Types s a b : pystr.

Lemma translate_newlines_app after_cr a b :
  translate_newlines after_cr (a ++ CR :: b)
  = translate_newlines after_cr a ++ LF :: translate_newlines true b.
Proof.
  revert after_cr; induction a as [|c a IH]; intros after_cr; [done|].
  cbn [app translate_newlines].
  destruct (c =? CR); [by rewrite IH|].
  destruct ((c =? LF) && after_cr); by rewrite IH.
Qed.

Lemma translate_newlines_after_cr b :
  head b ≠ Some LF → translate_newlines true b = translate_newlines false b.
Proof.
  destruct b as [|c b]; [done|]. cbn. intros Hc.
  destruct (c =? CR); [done|].
  destruct (N.eqb_spec c LF) as [->|]; [done|]. by rewrite !andb_false_l.
Qed.

Lemma universal_newlines_crlf a b :
  universal_newlines (a ++ [CR; LF] ++ b)
  = universal_newlines a ++ [LF] ++ universal_newlines b.
Proof.
  unfold universal_newlines.
  change (a ++ [CR; LF] ++ b) with (a ++ CR :: LF :: b).
  by rewrite translate_newlines_app.
Qed.

Lemma universal_newlines_cr a b :
  head b ≠ Some LF →
  universal_newlines (a ++ CR :: b)
  = universal_newlines a ++ LF :: universal_newlines b.
Proof.
  intros Hb. unfold universal_newlines.
  by rewrite translate_newlines_app, translate_newlines_after_cr.
Qed.

Lemma translate_newlines_no_cr after_cr s :
  CR ∉ translate_newlines after_cr s.
Proof.
  revert after_cr; induction s as [|c s IH]; intros after_cr; cbn.
  - apply not_elem_of_nil.
  - destruct (N.eqb_spec c CR) as [->|Hc].
    + apply not_elem_of_cons. split; [done | apply IH].
    + destruct ((c =? LF) && after_cr); [apply IH|].
      apply not_elem_of_cons. split; [done | apply IH].
Qed.

Lemma universal_newlines_id s : CR ∉ s → universal_newlines s = s.
Proof.
  unfold universal_newlines. induction s as [|c s IH]; [done|].
  intros [Hc Hs]%not_elem_of_cons. cbn.
  destruct (N.eqb_spec c CR) as [->|_]; [done|].
  rewrite andb_false_r. by rewrite IH.
Qed.

Lemma translate_newlines_isspace after_cr s :
  Forall (λ c, isspace c = true) s →
  Forall (λ c, isspace c = true) (translate_newlines after_cr s).
Proof.
  intros H. revert after_cr.
  induction H as [|c s Hc _ IH]; intros after_cr; cbn; [constructor|].
  destruct (c =? CR); [by constructor|].
  destruct ((c =? LF) && after_cr); [done|]. by constructor.
Qed.
End newline_facts.

(** C9, as stated, fails: a template whose lines end in carriage return
    and line feed does not come back as the contents of the file with the
    ends trimmed, because reading in text mode turns each of these line
    ends into a line feed. *)
Lemma read_prompt_from_file_translates_line_ends :
  read_prompt_from_file {[ PROMPT_FILE := File crlf_template ]} PROMPT_FILE
  = Ok (lit "first" ++ [LF] ++ lit "second")
  ∧ strip crlf_template = lit "first" ++ [CR; LF] ++ lit "second".
Proof. split; vm_compute; reflexivity. Qed.

(** C9, amended.  [read_prompt_from_file] returns the whole text of a
    readable file, in which every carriage return with the line feed that
    follows it and every other carriage return has become one line feed,
    with the white space at both ends cut off; that is the contents of the
    file with the ends cut off when the file holds no carriage return.
    For a path that does not exist it raises [FileNotFoundError] with the
    path in the message; for any other failure to read it raises
    [RuntimeError] with the path and the text of the failure in the
    message. *)
Theorem read_prompt_from_file_spec :
  (∀ fs path content,
     fs !! path = Some (File content) →
     read_prompt_from_file fs path = Ok (strip (universal_newlines content)))
  ∧ (∀ a b,
       universal_newlines (a ++ [CR; LF] ++ b)
       = universal_newlines a ++ [LF] ++ universal_newlines b)
  ∧ (∀ a b,
       head b ≠ Some LF →
       universal_newlines (a ++ CR :: b)
       = universal_newlines a ++ LF :: universal_newlines b)
  ∧ (∀ s, CR ∉ s → universal_newlines s = s)
  ∧ (∀ fs path content,
       fs !! path = Some (File content) → CR ∉ content →
       read_prompt_from_file fs path = Ok (strip content))
  ∧ (∀ s, ∃ l r,
       s = l ++ strip s ++ r
       ∧ Forall (λ c, isspace c = true) l
       ∧ Forall (λ c, isspace c = true) r
       ∧ (∀ c, head (strip s) = Some c → isspace c = false)
       ∧ (∀ c, last (strip s) = Some c → isspace c = false))
  ∧ (∀ (fs : filesystem) path,
       fs !! path = None →
       read_prompt_from_file fs path
       = Raise (Exn FileNotFoundError (lit "Prompt file not found: " ++ path)))
  ∧ (∀ (fs : filesystem) path e,
       fs !! path = Some (Faulty e) →
       isinstance e Exception = true →
       isinstance e FileNotFoundError = false →
       read_prompt_from_file fs path
       = Raise (Exn RuntimeError
                  (lit "Error reading prompt file: " ++ path ++ lit ", "
                   ++ exn_msg e))).
Proof.
  split_and!.
  - intros fs path content H. unfold read_prompt_from_file, read_text.
    by rewrite H.
  - apply universal_newlines_crlf.
  - apply universal_newlines_cr.
  - apply universal_newlines_id.
  - intros fs path content H Hcr. unfold read_prompt_from_file, read_text.
    rewrite H. cbn. by rewrite universal_newlines_id.
  - apply strip_spec.
  - intros fs path H. unfold read_prompt_from_file, read_text. by rewrite H.
  - intros fs path e H He Hnf. unfold read_prompt_from_file, read_text.
    rewrite H. cbn. by rewrite Hnf, He.
Qed.

Lemma read_prompt_from_file_spec_witness :
  read_prompt_from_file
    {[ PROMPT_FILE := File ([LF] ++ lit "  ten prompts, please " ++ [LF]) ]}
    PROMPT_FILE
  = Ok (lit "ten prompts, please")
  ∧ read_prompt_from_file ∅ PROMPT_FILE
    = Raise (Exn FileNotFoundError
               (lit "Prompt file not found: " ++ PROMPT_FILE))
  ∧ read_prompt_from_file
      {[ PROMPT_FILE := Faulty (Exn IsADirectoryError
                                  (lit "[Errno 21] Is a directory")) ]}
      PROMPT_FILE
    = Raise (Exn RuntimeError
               (lit "Error reading prompt file: " ++ PROMPT_FILE ++ lit ", "
                ++ lit "[Errno 21] Is a directory")).
Proof.
  destruct read_prompt_from_file_spec
    as (_ & _ & _ & _ & Hfile & _ & Hnone & Hother).
  split_and!.
  - apply (Hfile _ _ ([LF] ++ lit "  ten prompts, please " ++ [LF])).
    + by vm_compute.
    + apply (bool_decide_unpack _). vm_compute. exact I.
  - apply Hnone. by vm_compute.
  - apply (Hother _ _ (Exn IsADirectoryError (lit "[Errno 21] Is a directory")));
      by vm_compute.
Defined.

(** * Further properties *)

(** ** [generate_responses]: calls, responses and pauses *)

Section generate_more.
Context (api : service).
Implicit Types st : gen_state.

Local Open Scope nat_scope.

(** A call that does not fall through is not a rate-limit failure. *)
Lemma try_call_break st st' :
  try_call api st = (st', Ok Break) →
  rate_limited (api (calls st)) = false.
Proof.
  intros H. destruct (rate_limited (api (calls st))) eqn:E; [|done].
  by rewrite (try_call_rate_limited _ _ E) in H.
Qed.

Lemma try_call_break_state st st' :
  try_call api st = (st', Ok Break) →
  calls st' = S (calls st) ∧ errors st' = errors st.
Proof.
  intros H. pose proof (try_call_calls api st) as Hc.
  destruct (try_call_other api st (try_call_break _ _ H)) as (_ & He & _).
  rewrite H in Hc, He. done.
Qed.

(** Each slot costs one call, plus one for every retry; a retry happens
    only while the counter is at most 20. *)
Lemma while_true_calls fuel : ∀ st st',
  while_true fuel api st = Some (st', Ok ()) →
  calls st' + Nat.min (errors st) 20 = S (calls st + Nat.min (errors st') 20).
Proof.
  induction fuel as [|fuel IH]; intros st st'; [done|]. cbn [while_true].
  destruct (try_call api st) as [st1 [[]|e]] eqn:Hc; [| |done].
  - intros [= <-]. apply try_call_break_state in Hc as [-> ->]. lia.
  - pose proof (try_call_fall_through _ _ _ Hc) as E.
    rewrite (try_call_rate_limited _ _ E) in Hc. injection Hc as <-.
    cbn [errors]. destruct (Nat.ltb_spec 20 (S (errors st))).
    + intros [= <-]. cbn. lia.
    + intros H'%IH. cbn in H'. lia.
Qed.

Lemma for_range_calls n : ∀ st st',
  for_range n api st = Some (st', Ok ()) →
  calls st' + Nat.min (errors st) 20 = calls st + Nat.min (errors st') 20 + n.
Proof.
  induction n as [|n IH]; intros st st'; cbn [for_range].
  - intros [= <-]. lia.
  - destruct (while_true retry_fuel api st) as [[st1 [[]|e]]|] eqn:Hw;
      [|done..].
    apply while_true_calls in Hw. intros H%IH. lia.
Qed.

Lemma generate_responses_calls n st rs :
  generate_responses api n = Some (st, Ok rs) →
  calls st = Z.to_nat n + Nat.min (errors st) 20.
Proof.
  unfold generate_responses.
  destruct (for_range _ api gen_init) as [[st1 [[]|e]]|] eqn:Hf; [|done..].
  intros [= <- _]. apply for_range_calls in Hf. cbn in Hf. lia.
Qed.

(** *** The responses are the successful calls *)

Lemma successes_S k :
  successes api (S k)
  = successes api k ++ match api k with
                       | Returns text => [text]
                       | Raises _ => []
                       end.
Proof.
  unfold successes. rewrite seq_S, omap_app. cbn. by destruct (api k).
Qed.

Lemma try_call_responses st :
  responses (try_call api st).1
  = responses st ++ match api (calls st) with
                    | Returns text => [text]
                    | Raises _ => []
                    end.
Proof.
  unfold try_call. destruct (api (calls st)) as [t|e]; [done|].
  repeat case_match; cbn; by rewrite app_nil_r.
Qed.

Lemma after_calls_responses k :
  responses (after_calls api k) = successes api k.
Proof.
  induction k as [|k IH]; [done|].
  rewrite after_calls_S, try_call_responses, successes_S, IH.
  by rewrite after_calls_calls.
Qed.

Lemma while_true_responses fuel : ∀ st st' r,
  while_true fuel api st = Some (st', r) →
  length (responses st') ≤ S (length (responses st)).
Proof.
  induction fuel as [|fuel IH]; intros st st' r; [done|]. cbn [while_true].
  pose proof (try_call_responses st) as Hr.
  destruct (try_call api st) as [st1 [[]|e]] eqn:Hc; cbn in Hr.
  - intros [= <- _]. rewrite Hr, length_app. destruct (api (calls st)); cbn; lia.
  - pose proof (try_call_fall_through _ _ _ Hc) as E.
    rewrite (try_call_rate_limited _ _ E) in Hc. injection Hc as <-.
    clear Hr. cbn [errors].
    destruct (20 <? S (errors st)); [intros [= <- _]; cbn; lia|].
    intros H'%IH. cbn in H'. lia.
  - intros [= <- _]. rewrite Hr, length_app. destruct (api (calls st)); cbn; lia.
Qed.

Lemma for_range_responses n : ∀ st st' r,
  for_range n api st = Some (st', r) →
  length (responses st') ≤ length (responses st) + n.
Proof.
  induction n as [|n IH]; intros st st' r; cbn [for_range].
  - intros [= <- _]. lia.
  - destruct (while_true retry_fuel api st) as [[st1 [[]|e]]|] eqn:Hw;
      [| |done]; apply while_true_responses in Hw.
    + intros H%IH. lia.
    + intros [= <- _]. lia.
Qed.

(** *** The pauses *)

Lemma non_decreasing_snoc (l : list Q) d :
  non_decreasing l → Forall (λ x, (x <= d)%Q) l → non_decreasing (l ++ [d]).
Proof.
  intros Hl Hd i j d1 d2 Hij Hi Hj.
  destruct (decide (j < length l)) as [Hjl|Hjl].
  - rewrite lookup_app_l in Hi, Hj by lia. exact (Hl i j d1 d2 Hij Hi Hj).
  - assert (d2 = d) as ->.
    { rewrite lookup_app_r in Hj by lia.
      by destruct (j - length l) as [|[|m]]; simplify_eq/=. }
    destruct (decide (i < length l)) as [Hil|Hil].
    + rewrite lookup_app_l in Hi by lia.
      by apply (proj1 (Forall_lookup _ _) Hd i).
    + rewrite lookup_app_r in Hi by lia.
      destruct (i - length l) as [|[|m]]; simplify_eq/=. apply Qle_refl.
Qed.

Lemma after_calls_delay_ge k : (3 <= delay (after_calls api k))%Q.
Proof. apply (after_calls_delay_mono api 0 k). lia. Qed.

Lemma try_call_sleeps st :
  sleeps (try_call api st).1 = sleeps st
  ∨ sleeps (try_call api st).1 = sleeps st ++ [delay (try_call api st).1].
Proof. unfold try_call. repeat case_match; cbn; auto. Qed.

Lemma try_call_pauses st :
  length (sleeps (try_call api st).1)
  + length (responses st) + errors st
  = length (sleeps st)
    + length (responses (try_call api st).1) + errors (try_call api st).1.
Proof.
  unfold try_call. repeat case_match; cbn; rewrite ?length_app; cbn; lia.
Qed.

Lemma after_calls_sleeps k :
  non_decreasing (sleeps (after_calls api k))
  ∧ Forall (λ d, (3 <= d)%Q ∧ (d <= delay (after_calls api k))%Q)
      (sleeps (after_calls api k))
  ∧ length (sleeps (after_calls api k))
    = length (responses (after_calls api k)) + errors (after_calls api k).
Proof.
  induction k as [|k (Hs & Hb & Hn)].
  - split_and!; [|constructor|done]. intros i j d1 d2 _ Hi. by destruct i.
  - pose proof (after_calls_delay_mono api k (S k)) as Hm.
    pose proof (after_calls_delay_ge (S k)) as Hge.
    pose proof (try_call_pauses (after_calls api k)) as Hp.
    rewrite after_calls_S in *.
    assert (Forall (λ x, (x <= delay (try_call api (after_calls api k)).1)%Q)
              (sleeps (after_calls api k))) as Hle.
    { eapply Forall_impl; [exact Hb|]. intros d [_ Hd]. cbn beta.
      eapply Qle_trans; [exact Hd|]. apply Hm. lia. }
    split_and!; [| |lia].
    + destruct (try_call_sleeps (after_calls api k)) as [-> | ->]; [done|].
      by apply non_decreasing_snoc.
    + destruct (try_call_sleeps (after_calls api k)) as [-> | ->].
      * eapply Forall_impl; [exact Hb|]. intros d [Hd1 Hd2]. cbn beta.
        split; [done|]. eapply Qle_trans; [exact Hd2|]. apply Hm. lia.
      * apply Forall_app. split.
        -- eapply Forall_impl; [exact Hb|]. intros d [Hd1 Hd2]. cbn beta.
           split; [done|]. eapply Qle_trans; [exact Hd2|]. apply Hm. lia.
        -- constructor; [|constructor]. split; [done | apply Qle_refl].
Qed.

(** *** A service that never hits the rate limit *)

Lemma rate_limit_errors_none k :
  (∀ i, rate_limited (api i) = false) → rate_limit_errors api k = 0.
Proof.
  intros H. induction k as [|k IH]; [done|].
  by rewrite rate_limit_errors_S, IH, H.
Qed.
End generate_more.

Lemma generate_responses_are_successes_aux (api : service) (n : Z) st rs :
  generate_responses api n = Some (st, Ok rs) →
  rs = successes api (calls st) ∧ (length rs ≤ Z.to_nat n)%nat.
Proof.
  intros H. pose proof (generate_responses_after_calls _ _ _ _ H) as Hst.
  unfold generate_responses in H.
  destruct (for_range _ api gen_init) as [[st1 [[]|e]]|] eqn:Hf; [|done..].
  injection H as -> <-. split.
  - rewrite Hst at 1. apply after_calls_responses.
  - apply for_range_responses in Hf. cbn in Hf. lia.
Qed.

(** X1.  [generate_responses] returns for every service and every count,
    and a run that ends without an exception has made one call per slot
    plus one per retry; a call is retried only while the counter of
    rate-limit errors is at most 20, so there are [min errors 20] retries:
    between [N] and [N + 20] calls for [N] slots. *)
Theorem generate_responses_calls_bound (api : service) (n : Z) :
  ∃ st r,
    generate_responses api n = Some (st, r)
    ∧ (∀ rs, r = Ok rs →
         calls st = (Z.to_nat n + Nat.min (errors st) 20)%nat
         ∧ (Z.to_nat n ≤ calls st ≤ Z.to_nat n + 20)%nat).
Proof.
  destruct (generate_responses_returns api n) as [[st r] H].
  exists st, r. split; [done|]. intros rs ->.
  apply generate_responses_calls in H. lia.
Qed.

(** X2.  What [generate_responses] returns is exactly the texts of the
    calls that succeeded, in the order of the calls, and never more than
    one per slot. *)
Theorem generate_responses_are_successes (api : service) (n : Z) st rs :
  generate_responses api n = Some (st, Ok rs) →
  rs = successes api (calls st) ∧ (length rs ≤ Z.to_nat n)%nat.
Proof. apply generate_responses_are_successes_aux. Qed.

Lemma generate_responses_are_successes_witness :
  ∃ st, generate_responses rate_limited_at_first 10 = Some (st, Ok (replicate 9 (lit "ok")))
        ∧ replicate 9 (lit "ok") = successes rate_limited_at_first (calls st)
        ∧ (length (replicate 9 (lit "ok")) ≤ Z.to_nat 10)%nat.
Proof.
  eexists. split; [vm_compute; reflexivity|].
  eapply (generate_responses_are_successes rate_limited_at_first 10%Z).
  vm_compute; reflexivity.
Defined.

(** X3.  When no call fails with a rate-limit error (and none raises
    something that is not an [Exception]), [generate_responses] makes
    exactly one call per slot, never retries, leaves the delay at 3 and
    returns the texts of the calls that succeeded among those; a slot whose
    call failed is left out without a trace in the result. *)
Theorem generate_responses_without_rate_limit (api : service) (n : Z) :
  (∀ k, rate_limited (api k) = false) →
  (∀ k e, api k = Raises e → isinstance e Exception = true) →
  ∃ st,
    generate_responses api n = Some (st, Ok (successes api (Z.to_nat n)))
    ∧ calls st = Z.to_nat n ∧ errors st = 0%nat ∧ (delay st == 3)%Q.
Proof.
  intros Hrl Hexn. destruct (generate_responses_returns api n) as [[st r] H].
  destruct r as [rs|e].
  - pose proof (generate_responses_after_calls _ _ _ _ H) as Hst.
    assert (errors st = 0%nat) as He.
    { rewrite Hst, after_calls_errors. by apply rate_limit_errors_none. }
    pose proof (generate_responses_calls _ _ _ _ H) as Hc.
    rewrite He in Hc. cbn in Hc. rewrite Nat.add_0_r in Hc.
    destruct (generate_responses_are_successes_aux api n st rs H) as [-> _].
    exists st. rewrite Hc in *. split_and!; try done.
    rewrite Hst, after_calls_delay, <- Hst, He. reflexivity.
  - apply generate_responses_raise in H as (k & Hk & He).
    by rewrite (Hexn _ _ Hk) in He.
Qed.

Lemma generate_responses_without_rate_limit_witness :
  ∃ st,
    generate_responses fails_every_other 4
    = Some (st, Ok (successes fails_every_other (Z.to_nat 4)))
    ∧ calls st = Z.to_nat 4 ∧ errors st = 0%nat ∧ (delay st == 3)%Q.
Proof.
  apply (generate_responses_without_rate_limit fails_every_other 4%Z).
  - intros k. unfold fails_every_other. by destruct (Nat.even k).
  - intros k e. unfold fails_every_other.
    destruct (Nat.even k); [done|]. by intros [= <-].
Defined.

(** ** Runs that a signal interrupts *)

Section interruptible_facts.
Context (pause : pauses) (api : service).
Implicit Types st : Interruptible.run_state.

Local Open Scope nat_scope.

Lemma time_sleep_ok d st st' :
  Interruptible.time_sleep pause d st = (st', Ok ()) →
  st' = Interruptible.set_vars (Interruptible.slept d) st.
Proof.
  unfold Interruptible.time_sleep. by case_match; intros [= <-].
Qed.

(** A pause that raises leaves the variables as they are and is the last
    pause begun. *)
Lemma time_sleep_raise d st st' e :
  Interruptible.time_sleep pause d st = (st', Raise e) →
  Interruptible.vars st' = Interruptible.vars st
  ∧ pause (pred (Interruptible.begun st')) = Some e.
Proof.
  unfold Interruptible.time_sleep.
  destruct (pause (Interruptible.begun st)) as [e'|] eqn:E; [|done].
  intros [= <- <-]. split; [done|].
  unfold Interruptible.begun in *. cbn. by rewrite Nat.add_succ_r.
Qed.

Lemma except_clause_fall_through e st st' :
  Interruptible.except_clause pause e st = (st', Ok FallThrough) →
  errors (Interruptible.vars st') = S (errors (Interruptible.vars st)).
Proof.
  unfold Interruptible.except_clause.
  destruct (isinstance e Exception); [|done].
  destruct (contains _ _); [|done].
  destruct (Interruptible.time_sleep _ _ _) as [st1 [[]|e']] eqn:Hs; [|done].
  intros [= <-]. by rewrite (time_sleep_ok _ _ _ Hs).
Qed.

Lemma interruptible_try_call_fall_through st st' :
  Interruptible.try_call pause api st = (st', Ok FallThrough) →
  errors (Interruptible.vars st') = S (errors (Interruptible.vars st)).
Proof.
  unfold Interruptible.try_call.
  destruct (api _) as [text|e].
  - destruct (Interruptible.time_sleep _ _ _) as [st1 [[]|e]] eqn:Hs; [done|].
    intros H%except_clause_fall_through.
    destruct (time_sleep_raise _ _ _ _ Hs) as [Hv _]. by rewrite H, Hv.
  - by intros H%except_clause_fall_through.
Qed.

(** *** The loops return *)

Lemma interruptible_while_true_fuel fuel : ∀ st,
  21 - errors (Interruptible.vars st) ≤ fuel → 1 ≤ fuel →
  is_Some (Interruptible.while_true fuel pause api st).
Proof.
  induction fuel as [|fuel IH]; intros st He Hf; [lia|].
  cbn [Interruptible.while_true].
  destruct (Interruptible.try_call pause api st) as [st' [[]|e]] eqn:Hc;
    [done| |done].
  apply interruptible_try_call_fall_through in Hc.
  destruct (Nat.ltb_spec 20 (errors (Interruptible.vars st'))); [done|].
  apply IH; lia.
Qed.

Lemma interruptible_for_range_returns n : ∀ st,
  is_Some (Interruptible.for_range n pause api st).
Proof.
  induction n as [|n IH]; intros st; cbn [Interruptible.for_range]; [done|].
  destruct (interruptible_while_true_fuel retry_fuel st) as [[st' [[]|e]] ->];
    unfold retry_fuel; try lia; [apply IH | done].
Qed.

Lemma interruptible_generate_responses_returns n :
  is_Some (Interruptible.generate_responses pause api n).
Proof.
  unfold Interruptible.generate_responses.
  destruct (interruptible_for_range_returns (Z.to_nat n)
              (Interruptible.RunState gen_init 0)) as [[st [[]|e]] ->];
    done.
Qed.

(** *** What leaves the function *)

Lemma except_clause_raise e0 st st' e :
  Interruptible.except_clause pause e0 st = (st', Raise e) →
  (st' = st ∧ e = e0 ∧ isinstance e Exception = false)
  ∨ (pause (pred (Interruptible.begun st')) = Some e
     ∧ calls (Interruptible.vars st') = calls (Interruptible.vars st)
     ∧ last (gen_log (Interruptible.vars st'))
       = Some (RateLimitWarning (delay (Interruptible.vars st')))).
Proof.
  unfold Interruptible.except_clause.
  destruct (isinstance e0 Exception) eqn:E; [|intros [= <- <-]; by left].
  destruct (contains _ _); [|done].
  destruct (Interruptible.time_sleep _ _ _) as [st1 [[]|e']] eqn:Hs; [done|].
  intros [= <- <-]. right.
  destruct (time_sleep_raise _ _ _ _ Hs) as [Hv Hp].
  split; [done|]. rewrite Hv. cbn. split; [done|]. by rewrite last_snoc.
Qed.

Lemma interruptible_try_call_calls st :
  calls (Interruptible.vars (Interruptible.try_call pause api st).1)
  = S (calls (Interruptible.vars st)).
Proof.
  unfold Interruptible.try_call, Interruptible.except_clause,
    Interruptible.time_sleep.
  by repeat case_match; simplify_eq/=.
Qed.

(** An exception that leaves the [try] statement is the one of the call,
    and then no [Exception], or the one that cut the last pause short; an
    [Exception] among the latter comes from the pause of line 60, which
    follows the warning of line 59. *)
Lemma interruptible_try_call_raise st st' e :
  Interruptible.try_call pause api st = (st', Raise e) →
  (api (pred (calls (Interruptible.vars st'))) = Raises e
   ∧ isinstance e Exception = false)
  ∨ (pause (pred (Interruptible.begun st')) = Some e
     ∧ (isinstance e Exception = true →
        last (gen_log (Interruptible.vars st'))
        = Some (RateLimitWarning (delay (Interruptible.vars st'))))).
Proof.
  intros H. pose proof (interruptible_try_call_calls st) as Hcalls.
  rewrite H in Hcalls. cbn in Hcalls. rewrite Hcalls. cbn [pred].
  unfold Interruptible.try_call in H.
  destruct (api (calls (Interruptible.vars st))) as [text|e0] eqn:Ha.
  - destruct (Interruptible.time_sleep _ _ _) as [st1 [[]|e1]] eqn:Hs; [done|].
    destruct (time_sleep_raise _ _ _ _ Hs) as [_ Hp].
    apply except_clause_raise in H as [(-> & -> & He) | (Hp' & _ & Hl)].
    + right. split; [done|]. by rewrite He.
    + right. by split.
  - apply except_clause_raise in H as [(-> & -> & He) | (Hp' & _ & Hl)].
    + by left.
    + right. by split.
Qed.

Lemma interruptible_while_true_raise fuel : ∀ st st' e,
  Interruptible.while_true fuel pause api st = Some (st', Raise e) →
  (api (pred (calls (Interruptible.vars st'))) = Raises e
   ∧ isinstance e Exception = false)
  ∨ (pause (pred (Interruptible.begun st')) = Some e
     ∧ (isinstance e Exception = true →
        last (gen_log (Interruptible.vars st'))
        = Some (RateLimitWarning (delay (Interruptible.vars st'))))).
Proof.
  induction fuel as [|fuel IH]; intros st st' e; [done|].
  cbn [Interruptible.while_true].
  destruct (Interruptible.try_call pause api st) as [st1 [[]|e']] eqn:Hc;
    [done| |].
  - case_match; [done|]. apply IH.
  - intros [= <- <-]. by apply interruptible_try_call_raise in Hc.
Qed.

Lemma interruptible_for_range_raise n : ∀ st st' e,
  Interruptible.for_range n pause api st = Some (st', Raise e) →
  (api (pred (calls (Interruptible.vars st'))) = Raises e
   ∧ isinstance e Exception = false)
  ∨ (pause (pred (Interruptible.begun st')) = Some e
     ∧ (isinstance e Exception = true →
        last (gen_log (Interruptible.vars st'))
        = Some (RateLimitWarning (delay (Interruptible.vars st'))))).
Proof.
  induction n as [|n IH]; intros st st' e; [done|].
  cbn [Interruptible.for_range].
  destruct (Interruptible.while_true retry_fuel pause api st)
    as [[st1 [[]|e']]|] eqn:H; [apply IH | | done].
  intros [= <- <-]. by eapply interruptible_while_true_raise.
Qed.
End interruptible_facts.

(** *** With no pause cut short, the runs are those of the first model *)

Section uninterrupted_facts.
Context (api : service).

Lemma try_call_uninterrupted (st : gen_state) i :
  Interruptible.try_call uninterrupted api (Interruptible.RunState st i)
  = ((Interruptible.RunState (try_call api st).1 i), (try_call api st).2).
Proof.
  unfold Interruptible.try_call, try_call, Interruptible.except_clause,
    Interruptible.time_sleep, uninterrupted. cbn.
  destruct (api (calls st)) as [text|e]; [done|].
  destruct (isinstance e Exception); [|done].
  by destruct (contains _ _).
Qed.

Lemma while_true_uninterrupted fuel : ∀ (st : gen_state) i,
  Interruptible.while_true fuel uninterrupted api (Interruptible.RunState st i)
  = (λ out, (Interruptible.RunState out.1 i, out.2)) <$> while_true fuel api st.
Proof.
  induction fuel as [|fuel IH]; intros st i; [done|].
  cbn [Interruptible.while_true while_true]. rewrite try_call_uninterrupted.
  destruct (try_call api st) as [st' [[]|e]];
    cbn [fst snd Interruptible.vars]; [done| |done].
  destruct (20 <? errors st')%nat; [done|]. apply IH.
Qed.

Lemma for_range_uninterrupted n : ∀ (st : gen_state) i,
  Interruptible.for_range n uninterrupted api (Interruptible.RunState st i)
  = (λ out, (Interruptible.RunState out.1 i, out.2)) <$> for_range n api st.
Proof.
  induction n as [|n IH]; intros st i; [done|].
  cbn [Interruptible.for_range for_range]. rewrite while_true_uninterrupted.
  destruct (while_true retry_fuel api st) as [[st' [[]|e]]|];
    cbn [fmap option_fmap option_map fst snd]; [apply IH | done..].
Qed.

Lemma generate_responses_uninterrupted n :
  Interruptible.generate_responses uninterrupted api n
  = (λ out, (Interruptible.RunState out.1 0, out.2))
    <$> generate_responses api n.
Proof.
  unfold Interruptible.generate_responses, generate_responses.
  rewrite for_range_uninterrupted.
  by destruct (for_range _ api gen_init) as [[st' [[]|e]]|].
Qed.

Lemma main_uninterrupted (dotenv env : environ) (fs : filesystem) :
  Interruptible.main uninterrupted dotenv api env fs = main dotenv api env fs.
Proof.
  unfold Interruptible.main, main. f_equal.
  unfold Interruptible.main_try, main_try.
  destruct (load_api_key dotenv env) as [env' [key|e]]; [|done].
  destruct (read_prompt_from_file fs PROMPT_FILE) as [prompt|e]; [|done].
  rewrite generate_responses_uninterrupted.
  by destruct (generate_responses api GENERATION_COUNT) as [[st [rs|e]]|].
Qed.
End uninterrupted_facts.

(** X4.  [generate_responses] swallows every [Exception] a call raises.
    When it raises, what it raises is either the exception of the last
    call it made, and then no instance of [Exception] (an interrupt from
    the keyboard, an exit request), or the exception that cut its last
    pause short; and an [Exception] of a pause leaves only from the pause
    of line 60, the one that follows the rate-limit warning. *)
Theorem generate_responses_swallows_exceptions
    (pause : pauses) (api : service) (n : Z) st e :
  Interruptible.generate_responses pause api n = Some (st, Raise e) →
  (api (pred (calls (Interruptible.vars st))) = Raises e
   ∧ isinstance e Exception = false)
  ∨ (pause (pred (Interruptible.begun st)) = Some e
     ∧ (isinstance e Exception = true →
        last (gen_log (Interruptible.vars st))
        = Some (RateLimitWarning (delay (Interruptible.vars st))))).
Proof.
  unfold Interruptible.generate_responses.
  destruct (Interruptible.for_range _ pause api _) as [[st1 [[]|e']]|] eqn:H;
    try done.
  intros [= <- <-]. by eapply interruptible_for_range_raise.
Qed.

Lemma generate_responses_swallows_exceptions_witness :
  ∃ st,
    Interruptible.generate_responses interrupted_third_pause answers_a_b 10
    = Some (st, Raise (Exn KeyboardInterrupt []))
    ∧ ((answers_a_b (pred (calls (Interruptible.vars st)))
        = Raises (Exn KeyboardInterrupt [])
        ∧ isinstance (Exn KeyboardInterrupt []) Exception = false)
       ∨ (interrupted_third_pause (pred (Interruptible.begun st))
          = Some (Exn KeyboardInterrupt [])
          ∧ (isinstance (Exn KeyboardInterrupt []) Exception = true →
             last (gen_log (Interruptible.vars st))
             = Some (RateLimitWarning (delay (Interruptible.vars st)))))).
Proof.
  eexists. split; [vm_compute; reflexivity|].
  eapply (generate_responses_swallows_exceptions
            interrupted_third_pause answers_a_b 10%Z).
  vm_compute; reflexivity.
Defined.

(** X5.  The pauses of a run ([time.sleep]) never get shorter, each lasts
    at least 3 and at most the delay the run ends with, and there is one
    pause for every response collected and one for every rate-limit error;
    calls that fail otherwise are followed by no pause. *)
Theorem generate_responses_pauses (api : service) (n : Z) :
  ∃ st r,
    generate_responses api n = Some (st, r)
    ∧ non_decreasing (sleeps st)
    ∧ Forall (λ d, (3 <= d)%Q ∧ (d <= delay st)%Q) (sleeps st)
    ∧ length (sleeps st) = (length (responses st) + errors st)%nat.
Proof.
  destruct (generate_responses_returns api n) as [[st r] H].
  exists st, r. split; [done|].
  rewrite (generate_responses_after_calls _ _ _ _ H).
  apply after_calls_sleeps.
Qed.

(** ** The extractor and the batch: further properties *)

Section extract_more.
Implicit Types s t : pystr.

Lemma strip_fences_unfenced t :
  startswith t (lit "```json") = false → endswith t (lit "```") = false →
  strip_fences t = t.
Proof. intros H1 H2. unfold strip_fences. by rewrite H1, H2. Qed.

Lemma strip_fences_leading t :
  endswith t (lit "```") = false → strip_fences (lit "```json" ++ t) = t.
Proof.
  intros H. unfold strip_fences. rewrite startswith_app.
  change (slice_from 7 (lit "```json" ++ t)) with t. by rewrite H.
Qed.

Lemma extract_depends_on_stripped s s' :
  strip_fences s = strip_fences s' →
  extract_prompts_from_json s = extract_prompts_from_json s'.
Proof. unfold extract_prompts_from_json. by intros ->. Qed.

(** A text that is empty or starts with a backtick is no JSON. *)
Lemma loads_backtick t :
  t = [] ∨ head t = Some 96 →
  ∃ e, Json.loads t = Raise e ∧ exn_class_of e = JSONDecodeError.
Proof.
  intros [-> | H]; [by eexists|]. destruct t as [|c t]; [done|].
  injection H as ->. unfold Json.loads, decode, fuel_for.
  rewrite Nat.add_comm. cbn. by eexists.
Qed.

Lemma strip_fences_backtick s :
  head s = Some 96 → startswith s (lit "```json") = false →
  strip_fences s = [] ∨ head (strip_fences s) = Some 96.
Proof.
  intros Hh Hs. unfold strip_fences. rewrite Hs.
  destruct (endswith s (lit "```")) eqn:He; [|by right].
  apply endswith_spec in He as [u ->]. rewrite slice_fence.
  destruct u as [|c u]; [by left|]. by right.
Qed.

Lemma mapM_ok_inv {A B} (f : A → result B) l k :
  mapM f l = Ok k → Forall2 (λ x y, f x = Ok y) l k.
Proof.
  revert k; induction l as [|x l IH]; intros k; cbn [mapM].
  - intros [= <-]. constructor.
  - destruct (f x) as [y|e] eqn:Hx; cbn; [|done].
    destruct (mapM f l) as [k'|e] eqn:Hl; cbn; [|done].
    intros [= <-]. constructor; [done|]. by apply IH.
Qed.

Lemma subscript_prompt_ok_inv item v :
  subscript_prompt item = Ok v → prompt_of item = Some v.
Proof. destruct item; cbn; try done. case_match; by intros [= <-]. Qed.

Lemma extract_ok_inv s values :
  extract_prompts_from_json s = Ok values →
  (∃ items,
     Json.loads (strip_fences s) = Ok (JArray items)
     ∧ Forall2 (λ item v, prompt_of item = Some v) items values)
  ∨ (values = []
     ∧ (Json.loads (strip_fences s) = Ok (JObject [])
        ∨ Json.loads (strip_fences s) = Ok (JString []))).
Proof.
  unfold extract_prompts_from_json, extract_body.
  destruct (Json.loads (strip_fences s)) as [data|e] eqn:Hl; cbn;
    [|by repeat case_match].
  destruct (iterate data) as [items|e] eqn:Hi; cbn; [|by repeat case_match].
  destruct (mapM subscript_prompt items) as [vs|e] eqn:Hm; cbn;
    [|by repeat case_match].
  intros [= <-]. apply mapM_ok_inv in Hm.
  destruct data as [| | | |t|items'|members]; try done; injection Hi as <-.
  - right. destruct t as [|c t]; [|by inversion Hm].
    inversion Hm. auto.
  - left. exists items'. split; [done|].
    eapply Forall2_impl; [done|]. apply subscript_prompt_ok_inv.
  - right. destruct members as [|[k v] members]; [|by inversion Hm].
    inversion Hm. auto.
Qed.
End extract_more.

(** X6.  The fences are transparent: a text that carries no fence of its
    own gives the same result, prompts or error, whether it comes bare,
    between the two fences, or behind the leading fence only. *)
Theorem extract_prompts_from_json_fence_transparent (t : pystr) :
  startswith t (lit "```json") = false → endswith t (lit "```") = false →
  extract_prompts_from_json (lit "```json" ++ t ++ lit "```")
  = extract_prompts_from_json t
  ∧ extract_prompts_from_json (lit "```json" ++ t)
    = extract_prompts_from_json t.
Proof.
  intros H1 H2.
  split; apply extract_depends_on_stripped;
    rewrite (strip_fences_unfenced t H1 H2);
    [apply strip_fences_both | by apply strip_fences_leading].
Qed.

Lemma extract_prompts_from_json_fence_transparent_witness :
  extract_prompts_from_json (lit "```json" ++ prompts_a_b ++ lit "```")
  = extract_prompts_from_json prompts_a_b
  ∧ extract_prompts_from_json (lit "```json" ++ prompts_a_b)
    = extract_prompts_from_json prompts_a_b.
Proof.
  apply (extract_prompts_from_json_fence_transparent prompts_a_b);
    vm_compute; reflexivity.
Defined.

(** X7.  Only the fence tagged json is recognised at the start: a text
    that starts with a backtick without starting with the seven characters
    of that fence (a bare triple-backtick fence, say) is rejected with the
    invalid-JSON [ValueError], whatever it holds. *)
Theorem extract_prompts_from_json_untagged_fence (s : pystr) :
  head s = Some 96 → startswith s (lit "```json") = false →
  extract_prompts_from_json s
  = Raise (Exn ValueError (lit "Invalid JSON string: " ++ strip_fences s)).
Proof.
  intros Hh Hs.
  destruct (loads_backtick _ (strip_fences_backtick s Hh Hs)) as (e & He & Hc).
  by eapply extract_invalid.
Qed.

Lemma extract_prompts_from_json_untagged_fence_witness :
  extract_prompts_from_json (lit "```" ++ [LF] ++ prompts_a_b ++ [LF] ++ lit "```")
  = Raise (Exn ValueError
             (lit "Invalid JSON string: "
              ++ strip_fences (lit "```" ++ [LF] ++ prompts_a_b ++ [LF]
                               ++ lit "```"))).
Proof.
  apply extract_prompts_from_json_untagged_fence; vm_compute; reflexivity.
Defined.

(** X8.  [extract_prompts_from_json] never skips a record: when it returns,
    either the text parsed as a list and it returned one value for every
    item, each the value under ["prompt"] of an object, in order; or it
    returned nothing and the text was an empty object or an empty
    string. *)
Theorem extract_prompts_from_json_complete (s : pystr) (values : list json) :
  extract_prompts_from_json s = Ok values →
  (∃ items,
     Json.loads (strip_fences s) = Ok (JArray items)
     ∧ Forall2 (λ item v, prompt_of item = Some v) items values
     ∧ length values = length items)
  ∨ (values = []
     ∧ (Json.loads (strip_fences s) = Ok (JObject [])
        ∨ Json.loads (strip_fences s) = Ok (JString []))).
Proof.
  intros [(items & Hl & Hall) | H]%extract_ok_inv; [left|by right].
  exists items. split_and!; [done..|]. symmetry. by eapply Forall2_length.
Qed.

Lemma extract_prompts_from_json_complete_witness :
  (∃ items,
     Json.loads (strip_fences prompts_a_b) = Ok (JArray items)
     ∧ Forall2 (λ item v, prompt_of item = Some v) items
         [JString (lit "a"); JString (lit "b")]
     ∧ length [JString (lit "a"); JString (lit "b")] = length items)
  ∨ ([JString (lit "a"); JString (lit "b")] = []
     ∧ (Json.loads (strip_fences prompts_a_b) = Ok (JObject [])
        ∨ Json.loads (strip_fences prompts_a_b) = Ok (JString []))).
Proof.
  apply (extract_prompts_from_json_complete prompts_a_b).
  vm_compute; reflexivity.
Defined.

Lemma error_of_length (batch : list pystr) :
  length (flat_map error_of batch)
  = length (filter (λ r, extracts r = false) batch).
Proof.
  induction batch as [|r batch IH]; [done|]. cbn [flat_map].
  rewrite length_app, filter_cons, IH. unfold error_of, extracts.
  destruct (extract_prompts_from_json r); by case_decide.
Qed.

(** X9.  [process_responses] treats a batch piece by piece: the result and
    the log of two batches one after the other are the results and the
    logs of the two put end to end, so nothing is reordered, merged or
    deduplicated; and the log holds exactly one record for every response
    that does not extract. *)
Theorem process_responses_app (batch1 batch2 : list pystr) :
  ∃ log1 prompts1 log2 prompts2,
    process_responses batch1 = (log1, Ok prompts1)
    ∧ process_responses batch2 = (log2, Ok prompts2)
    ∧ process_responses (batch1 ++ batch2)
      = (log1 ++ log2, Ok (prompts1 ++ prompts2))
    ∧ length log1 = length (filter (λ r, extracts r = false) batch1).
Proof.
  exists (flat_map error_of batch1), (flat_map prompts_of batch1),
         (flat_map error_of batch2), (flat_map prompts_of batch2).
  rewrite !process_responses_spec, !flat_map_app.
  split_and!; try done. apply error_of_length.
Qed.

(** ** The writers: further properties *)

Section write_more.
Implicit Types fs : filesystem.
Implicit Types path : pystr.

Lemma write_each_response_ok_inv path rs : ∀ fs fs',
  write_each_response fs path rs = (fs', Ok ()) →
  Forall (λ r, existsb is_surrogate r = false) rs.
Proof.
  induction rs as [|r rs IH]; intros fs fs'; cbn [write_each_response];
    [constructor|].
  destruct (file_write fs path (r ++ [LF])) as [fs1 [[]|e]] eqn:Hw; [|done].
  intros H%IH. constructor; [|done].
  apply file_write_ok in Hw. rewrite existsb_app in Hw.
  by apply orb_false_iff in Hw as [? _].
Qed.

Lemma write_prompts_ok_inv strs path fs fs' :
  write_prompts_to_file (JString <$> strs) path fs = (fs', Ok ()) →
  (∀ e, fs !! path ≠ Some (Faulty e))
  ∧ Forall (λ r, existsb is_surrogate r = false) strs.
Proof.
  unfold write_prompts_to_file, open_append.
  destruct (fs !! path) as [[content|e]|] eqn:Hf.
  - rewrite write_each_prompt_strings.
    destruct (write_each_response fs path strs) as [fs1 r] eqn:Hw.
    intros [= _ Hr%wrap_write_error_ok]. subst r. split; [done|].
    by eapply write_each_response_ok_inv.
  - cbn. intros [= _ Hr]. by destruct (isinstance e Exception).
  - rewrite write_each_prompt_strings.
    destruct (write_each_response _ path strs) as [fs1 r] eqn:Hw.
    intros [= _ Hr%wrap_write_error_ok]. subst r. split; [done|].
    by eapply write_each_response_ok_inv.
Qed.

Lemma newline_terminated_app (l1 l2 : list pystr) :
  newline_terminated (l1 ++ l2) = newline_terminated l1 ++ newline_terminated l2.
Proof. unfold newline_terminated. by rewrite map_app, concat_app. Qed.

Lemma content_of_insert fs path text :
  content_of (<[path := File text]> fs) path = Some text.
Proof. unfold content_of. by rewrite lookup_insert_eq. Qed.

Lemma write_prompts_twice strs1 strs2 path fs fs1 fs2 :
  write_prompts_to_file (JString <$> strs1) path fs = (fs1, Ok ()) →
  write_prompts_to_file (JString <$> strs2) path fs1 = (fs2, Ok ()) →
  write_prompts_to_file (JString <$> (strs1 ++ strs2)) path fs = (fs2, Ok ()).
Proof.
  intros H1 H2.
  destruct (write_prompts_ok_inv _ _ _ _ H1) as [Hf Hs1].
  destruct (write_prompts_ok_inv _ _ _ _ H2) as [_ Hs2].
  apply write_prompts_ok in H1 as ->. apply write_prompts_ok in H2 as ->.
  rewrite content_of_insert, insert_insert_eq. cbn [default].
  pose proof (write_prompts_succeeds (strs1 ++ strs2) path fs Hf) as Hok.
  destruct (write_prompts_to_file (JString <$> (strs1 ++ strs2)) path fs)
    as [fs3 r] eqn:H3.
  cbn in Hok. specialize (Hok ltac:(by apply Forall_app)). subst r.
  apply write_prompts_ok in H3 as ->.
  by rewrite newline_terminated_app, app_assoc.
Qed.

(** The prompt loop up to the first prompt that is not a string. *)
Lemma write_each_prompt_not_string path strs bad rest : ∀ fs content,
  fs !! path = Some (File content) →
  Forall (λ r, existsb is_surrogate r = false) strs →
  is_string bad = false →
  write_each_prompt fs path ((JString <$> strs) ++ bad :: rest)
  = (<[path := File (content ++ newline_terminated strs)]> fs,
     Raise (type_error "unsupported operand type(s) for +")).
Proof.
  induction strs as [|r strs IH]; intros fs content Hf Hs Hbad.
  - cbn. rewrite app_nil_r, insert_id by done. by destruct bad.
  - apply Forall_cons in Hs as [Hr Hs]. cbn [fmap list_fmap app].
    cbn [write_each_prompt add_newline].
    rewrite (file_write_spec _ _ _ content Hf)
      by (rewrite existsb_app, Hr; done).
    rewrite (IH _ (content ++ r ++ [LF])); [|by rewrite lookup_insert_eq|done..].
    rewrite insert_insert_eq. unfold newline_terminated. cbn.
    by rewrite <- !app_assoc.
Qed.
End write_more.

(** X10.  Appending in two runs is appending once: when
    [write_prompts_to_file] returns for one list of prompts and then, on
    the files it left, for a second list, a single call with the two lists
    put end to end returns and leaves the very same files. *)
Theorem write_prompts_to_file_twice
    (prompts1 prompts2 : list pystr) (path : pystr) (fs fs1 fs2 : filesystem) :
  write_prompts_to_file (JString <$> prompts1) path fs = (fs1, Ok ()) →
  write_prompts_to_file (JString <$> prompts2) path fs1 = (fs2, Ok ()) →
  write_prompts_to_file (JString <$> (prompts1 ++ prompts2)) path fs
  = (fs2, Ok ()).
Proof. apply write_prompts_twice. Qed.

Lemma write_prompts_to_file_twice_witness :
  let fs1 := (write_prompts_to_file [JString (lit "a")] OUTPUT_FILE ∅).1 in
  let fs2 := (write_prompts_to_file [JString (lit "b")] OUTPUT_FILE fs1).1 in
  write_prompts_to_file (JString <$> ([lit "a"] ++ [lit "b"])) OUTPUT_FILE ∅
  = (fs2, Ok ()).
Proof.
  cbn zeta.
  apply (write_prompts_to_file_twice [lit "a"] [lit "b"] OUTPUT_FILE ∅
           (write_prompts_to_file [JString (lit "a")] OUTPUT_FILE ∅).1);
    vm_compute; reflexivity.
Defined.

(** X11.  A prompt that is not a string stops [write_prompts_to_file]: it
    raises [RuntimeError] (the [TypeError] of the concatenation, wrapped,
    with the path in the message), the lines of the prompts in front of it
    are already in the file, on top of what the file held, and nothing
    behind it is written. *)
Theorem write_prompts_to_file_not_string
    (prompts : list pystr) (bad : json) (rest : list json)
    (path : pystr) (fs : filesystem) :
  (∀ e, fs !! path ≠ Some (Faulty e)) →
  Forall (λ r, existsb is_surrogate r = false) prompts →
  is_string bad = false →
  ∃ msg,
    write_prompts_to_file ((JString <$> prompts) ++ bad :: rest) path fs
    = (<[path := File (default [] (content_of fs path)
                       ++ newline_terminated prompts)]> fs,
       Raise (Exn RuntimeError
                (lit "Error writing to file: " ++ path ++ lit ", " ++ msg))).
Proof.
  intros Hf Hs Hbad. exists (lit "unsupported operand type(s) for +").
  unfold write_prompts_to_file, open_append, content_of.
  destruct (fs !! path) as [[content|e]|] eqn:Hp; [|by destruct (Hf e)|].
  - by rewrite (write_each_prompt_not_string _ _ _ _ _ content).
  - rewrite (write_each_prompt_not_string _ _ _ _ _ []);
      [|by rewrite lookup_insert_eq|done..].
    by rewrite insert_insert_eq.
Qed.

Lemma write_prompts_to_file_not_string_witness :
  ∃ msg,
    write_prompts_to_file
      ((JString <$> [lit "a"]) ++ JInt 7 :: [JString (lit "b")])
      OUTPUT_FILE {[ OUTPUT_FILE := File (lit "kept" ++ [LF]) ]}
    = (<[OUTPUT_FILE :=
           File (default []
                   (content_of {[ OUTPUT_FILE := File (lit "kept" ++ [LF]) ]}
                      OUTPUT_FILE)
                 ++ newline_terminated [lit "a"])]>
         {[ OUTPUT_FILE := File (lit "kept" ++ [LF]) ]},
       Raise (Exn RuntimeError
                (lit "Error writing to file: " ++ OUTPUT_FILE ++ lit ", "
                 ++ msg))).
Proof.
  apply write_prompts_to_file_not_string.
  - intros e. vm_compute. discriminate.
  - repeat constructor.
  - reflexivity.
Defined.

Lemma write_raw_responses_ok_inv (rs : list pystr) (path : pystr)
    (fs fs' : filesystem) :
  write_raw_responses_to_file rs path fs = (fs', Ok ()) →
  (∀ e, fs !! path ≠ Some (Faulty e))
  ∧ Forall (λ r, existsb is_surrogate r = false) rs.
Proof.
  unfold write_raw_responses_to_file, open_truncate.
  destruct (fs !! path) as [[content|e]|] eqn:Hf.
  - destruct (write_each_response _ path rs) as [fs1 r] eqn:Hw.
    intros [= _ Hr%wrap_write_error_ok]. subst r. split; [done|].
    by eapply write_each_response_ok_inv.
  - cbn. intros [= _ Hr]. by destruct (isinstance e Exception).
  - destruct (write_each_response _ path rs) as [fs1 r] eqn:Hw.
    intros [= _ Hr%wrap_write_error_ok]. subst r. split; [done|].
    by eapply write_each_response_ok_inv.
Qed.

(** X12.  The raw-response file holds one run only: when
    [write_raw_responses_to_file] returns on the files an earlier call
    left, the files are the same as if the earlier call had not taken
    place. *)
Theorem write_raw_responses_to_file_overwrites
    (responses1 responses2 : list pystr) (path : pystr)
    (fs fs1 fs2 : filesystem) :
  write_raw_responses_to_file responses1 path fs = (fs1, Ok ()) →
  write_raw_responses_to_file responses2 path fs1 = (fs2, Ok ()) →
  write_raw_responses_to_file responses2 path fs = (fs2, Ok ()).
Proof.
  intros H1 H2.
  destruct (write_raw_responses_ok_inv _ _ _ _ H1) as [Hf _].
  destruct (write_raw_responses_ok_inv _ _ _ _ H2) as [_ Hs].
  apply write_raw_responses_ok in H1 as ->.
  apply write_raw_responses_ok in H2 as ->. rewrite insert_insert_eq.
  pose proof (write_raw_responses_succeeds responses2 path fs Hf Hs) as Hok.
  destruct (write_raw_responses_to_file responses2 path fs) as [fs3 r] eqn:H3.
  cbn in Hok. subst r. by apply write_raw_responses_ok in H3 as ->.
Qed.

Lemma write_raw_responses_to_file_overwrites_witness :
  let fs1 := (write_raw_responses_to_file [lit "old"; lit "run"]
                RAW_RESPONSES_FILE ∅).1 in
  let fs2 := (write_raw_responses_to_file [lit "new"]
                RAW_RESPONSES_FILE fs1).1 in
  write_raw_responses_to_file [lit "new"] RAW_RESPONSES_FILE ∅ = (fs2, Ok ()).
Proof.
  cbn zeta.
  apply (write_raw_responses_to_file_overwrites [lit "old"; lit "run"]
           [lit "new"] RAW_RESPONSES_FILE ∅
           (write_raw_responses_to_file [lit "old"; lit "run"]
              RAW_RESPONSES_FILE ∅).1);
    vm_compute; reflexivity.
Defined.

(** ** [read_prompt_from_file]: a blank template *)

Lemma lstrip_spaces (s : pystr) :
  Forall (λ c, isspace c = true) s → lstrip s = [].
Proof. induction 1 as [|c s Hc _ IH]; cbn; [done|]. by rewrite Hc. Qed.

(** X13.  A template file that is empty or holds white space only is no
    error: [read_prompt_from_file] returns the empty prompt. *)
Theorem read_prompt_from_file_blank
    (fs : filesystem) (path content : pystr) :
  fs !! path = Some (File content) →
  Forall (λ c, isspace c = true) content →
  read_prompt_from_file fs path = Ok [].
Proof.
  intros Hf Hs.
  pose proof (translate_newlines_isspace false content Hs) as Hs'.
  assert (strip (universal_newlines content) = []) as Hstrip
    by (unfold strip, rstrip, universal_newlines;
        by rewrite (lstrip_spaces _ Hs')).
  unfold read_prompt_from_file, read_text. rewrite Hf.
  cbv beta iota delta [mbind result_bind try_except]. by rewrite Hstrip.
Qed.

Lemma read_prompt_from_file_blank_witness :
  read_prompt_from_file {[ PROMPT_FILE := File (lit "  " ++ [LF]) ]} PROMPT_FILE
  = Ok [].
Proof.
  apply (read_prompt_from_file_blank _ _ (lit "  " ++ [LF])).
  - vm_compute; reflexivity.
  - repeat constructor.
Defined.

(** ** [main] *)

Section main_facts.
Context (dotenv : environ) (api : service) (env : environ) (fs : filesystem).
Implicit Types path : pystr.
Implicit Types rs : list pystr.
Implicit Types ps : list json.

Lemma output_is_not_raw : RAW_RESPONSES_FILE ≠ OUTPUT_FILE.
Proof. discriminate. Qed.

(** What the two writers raise is an [Exception], unless opening the path
    itself raised something else. *)
Lemma wrap_write_error_raise what path r e :
  wrap_write_error what path r = Raise e →
  isinstance e Exception = true
  ∨ (r = Raise e ∧ isinstance e Exception = false).
Proof.
  unfold wrap_write_error. destruct r as [[]|e0]; cbn; [done|].
  destruct (isinstance e0 Exception) eqn:E; intros [= <-]; auto.
Qed.

Lemma write_each_response_raise path rs : ∀ (fs0 fs' : filesystem) e,
  write_each_response fs0 path rs = (fs', Raise e) →
  isinstance e Exception = true.
Proof.
  induction rs as [|r rs IH]; intros fs0 fs' e; cbn [write_each_response];
    [done|].
  destruct (file_write fs0 path (r ++ [LF])) as [fs1 [[]|e0]] eqn:Hw;
    [apply IH|].
  intros [= _ ->]. unfold file_write in Hw. by case_match; simplify_eq.
Qed.

Lemma write_each_prompt_raise path ps : ∀ (fs0 fs' : filesystem) e,
  write_each_prompt fs0 path ps = (fs', Raise e) →
  isinstance e Exception = true.
Proof.
  induction ps as [|p ps IH]; intros fs0 fs' e; cbn [write_each_prompt];
    [done|].
  destruct (add_newline p) as [line|e0] eqn:Hp.
  - destruct (file_write fs0 path line) as [fs1 [[]|e0]] eqn:Hw; [apply IH|].
    intros [= _ ->]. unfold file_write in Hw. by case_match; simplify_eq.
  - intros [= _ ->]. by destruct p; simplify_eq/=.
Qed.

Lemma write_raw_responses_raise rs path (fs0 fs' : filesystem) e :
  write_raw_responses_to_file rs path fs0 = (fs', Raise e) →
  isinstance e Exception = true ∨ fs0 !! path = Some (Faulty e).
Proof.
  unfold write_raw_responses_to_file, open_truncate.
  destruct (fs0 !! path) as [[content|e0]|] eqn:Hf.
  1,3: destruct (write_each_response _ path rs) as [fs1 r] eqn:Hw;
       intros [= _ [H | [-> H]]%wrap_write_error_raise]; [by left|];
       apply write_each_response_raise in Hw; congruence.
  cbn. intros [= _ H].
  destruct (isinstance e0 Exception) eqn:E; injection H as <-; auto.
Qed.

Lemma write_prompts_raise ps path (fs0 fs' : filesystem) e :
  write_prompts_to_file ps path fs0 = (fs', Raise e) →
  isinstance e Exception = true ∨ fs0 !! path = Some (Faulty e).
Proof.
  unfold write_prompts_to_file, open_append.
  destruct (fs0 !! path) as [[content|e0]|] eqn:Hf.
  1,3: destruct (write_each_prompt _ path ps) as [fs1 r] eqn:Hw;
       intros [= _ [H | [-> H]]%wrap_write_error_raise]; [by left|];
       apply write_each_prompt_raise in Hw; congruence.
  cbn. intros [= _ H].
  destruct (isinstance e0 Exception) eqn:E; injection H as <-; auto.
Qed.

Lemma read_prompt_raise path e :
  read_prompt_from_file fs path = Raise e →
  isinstance e Exception = true ∨ fs !! path = Some (Faulty e).
Proof.
  unfold read_prompt_from_file, read_text.
  destruct (fs !! path) as [[content|e0]|]; cbn; [done| |by intros [= <-]; left].
  repeat case_match; intros [= <-]; auto.
Qed.

Lemma load_api_key_raise e :
  (load_api_key dotenv env).2 = Raise e → isinstance e Exception = true.
Proof.
  unfold load_api_key. cbn. repeat case_match; by intros [= <-].
Qed.
End main_facts.

Section main_results.
Context (dotenv : environ) (api : service) (env : environ) (fs : filesystem).

Lemma main_try_returns : is_Some (main_try dotenv api env fs).
Proof.
  unfold main_try.
  destruct (load_api_key dotenv env) as [env' [key|e0]]; [|done].
  destruct (read_prompt_from_file fs PROMPT_FILE) as [prompt|e0]; [|done].
  destruct (generate_responses_returns api GENERATION_COUNT) as [[st r] ->].
  destruct r as [rs|e0]; [|done].
  destruct (write_raw_responses_to_file rs RAW_RESPONSES_FILE fs)
    as [fs1 [[]|e0]]; [|done].
  rewrite process_responses_spec.
  by destruct (write_prompts_to_file _ OUTPUT_FILE fs1) as [fs2 [[]|e0]].
Qed.

End main_results.

Section interruptible_main.
Context (pause : pauses) (dotenv : environ) (api : service) (env : environ)
  (fs : filesystem).

Lemma interruptible_main_try_returns :
  is_Some (Interruptible.main_try pause dotenv api env fs).
Proof.
  unfold Interruptible.main_try.
  destruct (load_api_key dotenv env) as [env' [key|e0]]; [|done].
  destruct (read_prompt_from_file fs PROMPT_FILE) as [prompt|e0]; [|done].
  destruct (interruptible_generate_responses_returns pause api
              GENERATION_COUNT) as [[st r] ->].
  destruct r as [rs|e0]; [|done]. cbn zeta.
  destruct (write_raw_responses_to_file rs RAW_RESPONSES_FILE fs)
    as [fs1 [[]|e0]]; [|done].
  rewrite process_responses_spec.
  by destruct (write_prompts_to_file _ OUTPUT_FILE fs1) as [fs2 [[]|e0]].
Qed.

(** Where an exception that leaves the body of [main] comes from. *)
Lemma interruptible_main_try_raise w e :
  Interruptible.main_try pause dotenv api env fs = Some (w, Raise e) →
  isinstance e Exception = true
  ∨ (∃ k, api k = Raises e) ∨ (∃ k, pause k = Some e)
  ∨ (∃ path, fs !! path = Some (Faulty e)).
Proof.
  unfold Interruptible.main_try.
  destruct (load_api_key dotenv env) as [env' [key|e0]] eqn:Hk.
  2:{ intros [= _ ->]. left. apply (load_api_key_raise dotenv env).
      by rewrite Hk. }
  destruct (read_prompt_from_file fs PROMPT_FILE) as [prompt|e0] eqn:Hp.
  2:{ intros [= _ ->].
      destruct (read_prompt_raise _ _ _ Hp) as [?|?]; eauto 6. }
  destruct (Interruptible.generate_responses pause api GENERATION_COUNT)
    as [[st [rs|e0]]|] eqn:Hg; [| |done].
  2:{ intros [= _ ->]. unfold Interruptible.generate_responses in Hg.
      destruct (Interruptible.for_range _ pause api _)
        as [[st1 [[]|e']]|] eqn:H; try done.
      injection Hg as <- <-.
      apply interruptible_for_range_raise in H as [[? _] | [? _]]; eauto 6. }
  cbn zeta.
  destruct (write_raw_responses_to_file rs RAW_RESPONSES_FILE fs)
    as [fs1 [[]|e0]] eqn:Hw.
  2:{ intros [= _ ->].
      destruct (write_raw_responses_raise _ _ _ _ _ Hw) as [?|?]; eauto 6. }
  rewrite process_responses_spec.
  destruct (write_prompts_to_file _ OUTPUT_FILE fs1) as [fs2 [[]|e0]] eqn:Ho;
    [done|].
  intros [= _ ->].
  destruct (write_prompts_raise _ _ _ _ _ Ho) as [?|Hf]; [by left|].
  apply write_raw_responses_ok in Hw as ->.
  rewrite lookup_insert_ne in Hf by apply output_is_not_raw. eauto 6.
Qed.
End interruptible_main.

(** X14.  [main] always returns, and no [Exception] leaves it, whatever
    the service, the pauses and the files do: it returns normally or
    raises something that is not an [Exception] (an interrupt from the
    keyboard).  When the calls, the pauses and the files raise nothing
    but [Exception]s, it returns normally. *)
Theorem main_catches_exceptions
    (pause : pauses) (dotenv : environ) (api : service) (env : environ)
    (fs : filesystem) :
  ∃ w r,
    Interruptible.main pause dotenv api env fs = Some (w, r)
    ∧ (∀ e, r = Raise e → isinstance e Exception = false)
    ∧ ((∀ k e, api k = Raises e → isinstance e Exception = true) →
       (∀ k e, pause k = Some e → isinstance e Exception = true) →
       (∀ path e, fs !! path = Some (Faulty e) →
                  isinstance e Exception = true) →
       r = Ok ()).
Proof.
  unfold Interruptible.main.
  destruct (interruptible_main_try_returns pause dotenv api env fs)
    as [[w [[]|e]] Hm]; rewrite Hm.
  - by exists w, (Ok ()).
  - destruct (isinstance e Exception) eqn:He.
    + by eexists _, (Ok ()).
    + exists w, (Raise e). split_and!; [done | by intros ? [= <-] |].
      intros Hapi Hpause Hfs.
      destruct (interruptible_main_try_raise _ _ _ _ _ _ _ Hm)
        as [H | [[k H] | [[k H] | [path H]]]].
      * congruence.
      * apply Hapi in H. congruence.
      * apply Hpause in H. congruence.
      * apply Hfs in H. congruence.
Qed.

(** An interrupt from the keyboard during the third pause: three calls
    were answered, no call raised, no file is written, and the interrupt
    leaves [main]. *)
Lemma main_interrupted_in_a_pause :
  ∃ w,
    Interruptible.main interrupted_third_pause ∅ answers_a_b
      {[ API_KEY_ENV_VAR := lit "key" ]} {[ PROMPT_FILE := File (lit "ask") ]}
    = Some (w, Raise (Exn KeyboardInterrupt []))
    ∧ service_calls w = 3%nat
    ∧ files w = {[ PROMPT_FILE := File (lit "ask") ]}.
Proof. eexists. split; [vm_compute; reflexivity|]. done. Qed.

(** X15.  [main] fails fast: when the key or the prompt template cannot be
    loaded, no call is made to the service, no file is touched, the error
    and its trace are the only records logged, and [main] returns
    normally. *)
Theorem main_fails_fast
    (dotenv : environ) (api : service) (env : environ) (fs : filesystem) e :
  (load_api_key dotenv env).2 = Raise e
  ∨ ((∃ key, (load_api_key dotenv env).2 = Ok key)
     ∧ read_prompt_from_file fs PROMPT_FILE = Raise e) →
  isinstance e Exception = true →
  main dotenv api env fs
  = Some (World (load_dotenv dotenv env) fs 0
            [ErrorOccurred e; ErrorTraceback], Ok ()).
Proof.
  intros H He. unfold main, main_try.
  assert (load_api_key dotenv env
          = (load_dotenv dotenv env, (load_api_key dotenv env).2)) as E by done.
  rewrite E. destruct H as [H | [[key Hk] Hp]].
  - rewrite H. by rewrite He.
  - rewrite Hk, Hp. by rewrite He.
Qed.

Lemma main_fails_fast_witness :
  main ∅ always_rate_limited ∅ {[ PROMPT_FILE := File (lit "ask") ]}
  = Some (World (load_dotenv ∅ ∅) {[ PROMPT_FILE := File (lit "ask") ]} 0
            [ErrorOccurred
               (Exn ValueError
                  (lit "API key not found in environment variable: "
                   ++ API_KEY_ENV_VAR));
             ErrorTraceback], Ok ()).
Proof.
  apply main_fails_fast; [left|]; vm_compute; reflexivity.
Defined.

(** X16.  The raw responses are on file before anything is extracted: once
    the key and the template are loaded, the responses generated and
    written, the raw-response file holds them at the end of [main]
    whatever the extraction and the last write do, and the count of calls
    is the one of [generate_responses]. *)
Theorem main_keeps_raw_responses
    (dotenv : environ) (api : service) (env : environ) (fs fs1 : filesystem)
    key prompt st responses w r :
  (load_api_key dotenv env).2 = Ok key →
  read_prompt_from_file fs PROMPT_FILE = Ok prompt →
  generate_responses api GENERATION_COUNT = Some (st, Ok responses) →
  write_raw_responses_to_file responses RAW_RESPONSES_FILE fs = (fs1, Ok ()) →
  main dotenv api env fs = Some (w, r) →
  content_of (files w) RAW_RESPONSES_FILE = Some (newline_terminated responses)
  ∧ service_calls w = calls st
  ∧ (∀ p, p ≠ RAW_RESPONSES_FILE → p ≠ OUTPUT_FILE → files w !! p = fs !! p).
Proof.
  intros Hk Hp Hg Hw. unfold main, main_try.
  destruct (load_api_key dotenv env) as [env' [key'|e0]]; [|done].
  rewrite Hp, Hg, Hw, process_responses_spec.
  destruct (write_prompts_frame (flat_map prompts_of responses) OUTPUT_FILE fs1)
    as [_ Hframe].
  apply write_raw_responses_ok in Hw as ->.
  destruct (write_prompts_to_file _ OUTPUT_FILE _) as [fs2 [[]|e0]];
    cbn in Hframe.
  - intros [= <- _]. cbn [files service_calls]. split_and!; [|done|].
    + unfold content_of. rewrite Hframe by apply output_is_not_raw.
      by rewrite lookup_insert_eq.
    + intros p H1 H2. by rewrite Hframe, lookup_insert_ne.
  - destruct (isinstance e0 Exception); intros [= <- _];
      cbn [files service_calls]; (split_and!; [|done|]).
    all: try (unfold content_of; rewrite Hframe by apply output_is_not_raw;
              by rewrite lookup_insert_eq).
    all: intros p H1 H2; by rewrite Hframe, lookup_insert_ne.
Qed.

Lemma main_keeps_raw_responses_witness :
  ∃ w r,
    main ∅ answers_a_b {[ API_KEY_ENV_VAR := lit "key" ]}
      {[ PROMPT_FILE := File (lit "ask") ]} = Some (w, r)
    ∧ content_of (files w) RAW_RESPONSES_FILE
      = Some (newline_terminated (replicate 10 prompts_a_b))
    ∧ service_calls w = 10%nat.
Proof.
  eexists _, _. split; [vm_compute; reflexivity|].
  edestruct (main_keeps_raw_responses ∅ answers_a_b
            {[ API_KEY_ENV_VAR := lit "key" ]}
            {[ PROMPT_FILE := File (lit "ask") ]}
            (write_raw_responses_to_file (replicate 10 prompts_a_b)
               RAW_RESPONSES_FILE {[ PROMPT_FILE := File (lit "ask") ]}).1
            (lit "key") (lit "ask")
            (GenState (replicate 10 prompts_a_b) 3 0 10 (replicate 10 3%Q) [])
            (replicate 10 prompts_a_b)) as (Hraw & Hcalls & _);
    [vm_compute; reflexivity..|].
  split; [exact Hraw | exact Hcalls].
Defined.

(** X17.  A run without faults, end to end: with the key set, the template
    readable, the two output paths writable and every extracted prompt a
    string, [main] returns normally; the raw-response file then holds the
    responses of this run only, the output file holds what it held before
    followed by the prompts of all responses in order, and the log ends
    with the summary that counts them. *)
Theorem main_success
    (dotenv : environ) (api : service) (env : environ) (fs : filesystem)
    key prompt st (responses prompts : list pystr) :
  (load_api_key dotenv env).2 = Ok key →
  read_prompt_from_file fs PROMPT_FILE = Ok prompt →
  generate_responses api GENERATION_COUNT = Some (st, Ok responses) →
  (∀ e, fs !! RAW_RESPONSES_FILE ≠ Some (Faulty e)) →
  (∀ e, fs !! OUTPUT_FILE ≠ Some (Faulty e)) →
  Forall (λ r, existsb is_surrogate r = false) responses →
  flat_map prompts_of responses = JString <$> prompts →
  Forall (λ r, existsb is_surrogate r = false) prompts →
  main dotenv api env fs
  = Some (World (load_dotenv dotenv env)
            (<[OUTPUT_FILE :=
                 File (default [] (content_of fs OUTPUT_FILE)
                       ++ newline_terminated prompts)]>
               (<[RAW_RESPONSES_FILE :=
                    File (newline_terminated responses)]> fs))
            (calls st)
            (((Logged <$> gen_log st)
              ++ (Logged <$> flat_map error_of responses))
             ++ [SuccessInfo (length prompts) OUTPUT_FILE]),
          Ok ()).
Proof.
  intros Hk Hp Hg Hraw Hout Hrs Hps Hstr. unfold main, main_try.
  assert (load_api_key dotenv env
          = (load_dotenv dotenv env, (load_api_key dotenv env).2)) as E by done.
  rewrite E, Hk, Hp, Hg.
  pose proof (write_raw_responses_succeeds responses RAW_RESPONSES_FILE fs
                Hraw Hrs) as Hw.
  destruct (write_raw_responses_to_file responses RAW_RESPONSES_FILE fs)
    as [fs1 r1] eqn:H1. cbn in Hw. subst r1.
  apply write_raw_responses_ok in H1 as ->.
  rewrite process_responses_spec, Hps.
  set (fs1 := <[RAW_RESPONSES_FILE := _]> fs).
  assert (fs1 !! OUTPUT_FILE = fs !! OUTPUT_FILE) as Hsame
    by (unfold fs1; by rewrite lookup_insert_ne by apply output_is_not_raw).
  assert (∀ e, fs1 !! OUTPUT_FILE ≠ Some (Faulty e)) as Hout1
    by (intros e; rewrite Hsame; apply Hout).
  pose proof (write_prompts_succeeds prompts OUTPUT_FILE fs1 Hout1 Hstr) as Hw.
  destruct (write_prompts_to_file (JString <$> prompts) OUTPUT_FILE fs1)
    as [fs2 r2] eqn:H2. cbn in Hw. subst r2.
  apply write_prompts_ok in H2 as ->.
  unfold content_of. rewrite Hsame, length_fmap. done.
Qed.

Lemma main_success_witness :
  ∃ w,
    main ∅ answers_a_b {[ API_KEY_ENV_VAR := lit "key" ]}
      {[ PROMPT_FILE := File (lit "ask");
         OUTPUT_FILE := File (lit "kept" ++ [LF]) ]}
    = Some (w, Ok ())
    ∧ content_of (files w) OUTPUT_FILE
      = Some (lit "kept" ++ [LF]
              ++ newline_terminated (concat (replicate 10 [lit "a"; lit "b"])))
    ∧ last (logged w) = Some (SuccessInfo 20 OUTPUT_FILE).
Proof.
  eexists. split.
  - eapply (main_success ∅ answers_a_b {[ API_KEY_ENV_VAR := lit "key" ]}
              {[ PROMPT_FILE := File (lit "ask");
                 OUTPUT_FILE := File (lit "kept" ++ [LF]) ]}
              (lit "key") (lit "ask")
              (GenState (replicate 10 prompts_a_b) 3 0 10 (replicate 10 3%Q) [])
              (replicate 10 prompts_a_b)
              (concat (replicate 10 [lit "a"; lit "b"]))).
    1-3, 7: vm_compute; reflexivity.
    1-2: intros e; vm_compute; discriminate.
    all: apply (bool_decide_unpack _); vm_compute; exact I.
  - split; vm_compute; reflexivity.
Defined.
